(** * The task schema updater of Theia's task package

    A shallow embedding of [packages/task/src/browser/task-schema-updater.ts]:
    the two module-level name arrays, the schema template that aliases them,
    schema assembly ([getTaskSchema]), serialization, the publisher
    ([update]) and the two aggregators, followed by the properties of the
    component.

    Conventions.
    - A JavaScript string is a [string]; a character stands for one code
      unit, and [Array.prototype.sort] without a comparator orders strings by
      code units, which is [String.compare].
    - The JavaScript heap is a list of objects addressed by position.  Objects
      are never freed; allocation appends.
    - An [async] method is split at its [await]s into the part that runs
      synchronously and the continuations that run when the awaited promise
      settles. *)

From Stdlib Require Import String Ascii List Arith NArith Lia Bool.
From Stdlib Require Import Sorting.Sorted Sorting.Permutation.
From stdpp Require Import base option list strings gmap.

Set Warnings "-register-all".

Local Open Scope string_scope.
Local Open Scope list_scope.

(** ** Strings and names *)

Module Names.

(** [s.startsWith(p)] *)
Definition startsWith (s p : string) : bool := String.prefix p s.

(** The arrow function of [updateProblemMatcherNames]:
    [m => m.name.startsWith('$') ? m.name : `$${m.name}`]. *)
Definition normalizeMatcherName (name : string) : string :=
  if startsWith name "$" then name else "$" +:+ name.

(** [new Set(iterable)]: elements in insertion order, an element that is
    already present is not added again. *)
Definition Set_add (s : list string) (x : string) : list string :=
  if existsb (String.eqb x) s then s else s ++ [x].

Definition Set_from (xs : list string) : list string :=
  fold_left Set_add xs [].

(** [Array.prototype.sort()] on strings.  The algorithm is left to the
    engine; on a total order every algorithm returns the same array, so
    insertion sort stands for it. *)
Fixpoint sort_insert (x : string) (l : list string) : list string :=
  match l with
  | [] => [x]
  | y :: r => if String.leb x y then x :: y :: r else y :: sort_insert x r
  end.

Definition Array_sort (l : list string) : list string :=
  fold_right sort_insert [] l.

(** The body of [getRegisteredTaskTypes] after its [await]:
    [new Set([...server, ...browser])] then [Array.from(...).sort()]. *)
Definition mergeTaskTypes (serverSupportedTypes browserSupportedTypes : list string)
  : list string :=
  Array_sort (Set_from (serverSupportedTypes ++ browserSupportedTypes)).

(** The initial contents of [supportedTaskTypes]. *)
Definition defaultTaskTypes : list string := ["shell"; "process"].

Definition str_le (a b : string) : Prop := String.leb a b = true.

End Names.

Export Names.

(** ** JSON values and [JSON.stringify] *)

Module Json.

Inductive JSON :=
| JNull
| JBool (b : bool)
| JStr (s : string)
| JArr (elems : list JSON)
| JObj (props : list (string * JSON)).

Definition dquote : ascii := "034"%char.

Definition hex_digit (n : N) : ascii :=
  match n with
  | 0%N => "0" | 1%N => "1" | 2%N => "2" | 3%N => "3" | 4%N => "4"
  | 5%N => "5" | 6%N => "6" | 7%N => "7" | 8%N => "8" | 9%N => "9"
  | 10%N => "a" | 11%N => "b" | 12%N => "c" | 13%N => "d" | 14%N => "e"
  | _ => "f"
  end%char.

(** QuoteJSONString, one code unit at a time. *)
Definition quote_char (c : ascii) : string :=
  let n := N_of_ascii c in
  if (n =? 8)%N then "\b"
  else if (n =? 9)%N then "\t"
  else if (n =? 10)%N then "\n"
  else if (n =? 12)%N then "\f"
  else if (n =? 13)%N then "\r"
  else if (n =? 34)%N then String "\" (String dquote EmptyString)
  else if (n =? 92)%N then "\\"
  else if (n <? 32)%N then
    "\u00" +:+ String (hex_digit (n / 16)) (String (hex_digit (n mod 16)) EmptyString)
  else String c EmptyString.

Fixpoint quote_body (s : string) : string :=
  match s with
  | EmptyString => EmptyString
  | String c r => quote_char c +:+ quote_body r
  end.

Definition quote (s : string) : string :=
  String dquote (quote_body s +:+ String dquote EmptyString).

Fixpoint join_comma (l : list string) : string :=
  match l with
  | [] => EmptyString
  | [x] => x
  | x :: r => x +:+ "," +:+ join_comma r
  end.

(** [JSON.stringify(value)] without indentation: members in property order,
    no white space. *)
Fixpoint render (j : JSON) : string :=
  match j with
  | JNull => "null"
  | JBool true => "true"
  | JBool false => "false"
  | JStr s => quote s
  | JArr elems => "[" +:+ join_comma (map render elems) +:+ "]"
  | JObj props =>
      "{" +:+ join_comma (map (fun kv => quote (fst kv) +:+ ":" +:+ render (snd kv)) props) +:+ "}"
  end.

(** Property access [o.k] and index access [a[i]] on a value read as a tree. *)
Fixpoint assoc {A} (k : string) (l : list (string * A)) : option A :=
  match l with
  | [] => None
  | (k', v) :: r => if String.eqb k k' then Some v else assoc k r
  end.

Definition get (k : string) (j : JSON) : option JSON :=
  match j with JObj props => assoc k props | _ => None end.

Definition at_index (i : nat) (j : JSON) : option JSON :=
  match j with JArr elems => elems !! i | _ => None end.

End Json.

Export Json.

(** ** The JavaScript heap *)

Module Heap.

Abbreviation loc := nat.

(** A value is a string, a reference to an object of this heap, or a
    reference to an object owned by another module, which this module only
    reads; such an object is given by the tree it reads as. *)
Inductive val :=
| VStr (s : string)
| VExt (j : JSON)
| VRef (l : loc).

Inductive obj :=
| OArr (elems : list val)
| OObj (props : list (string * val)).

Abbreviation heap := (list obj).

Definition alloc (o : obj) (h : heap) : val * heap :=
  (VRef (length h), h ++ [o]).

(** Object and array literal expressions.  [LVal v] is the occurrence of a
    variable whose value is [v]: it evaluates to [v] itself, so the object
    built around it shares [v] with every other holder. *)
Inductive lit :=
| LStr (s : string)
| LVal (v : val)
| LArr (elems : list lit)
| LObj (props : list (string * lit)).

(** Evaluation allocates one object per literal, the inner ones first. *)
Fixpoint eval_lit (e : lit) (h : heap) : val * heap :=
  match e with
  | LStr s => (VStr s, h)
  | LVal v => (v, h)
  | LArr elems =>
      let '(vs, h') :=
        (fix go (es : list lit) (h : heap) : list val * heap :=
           match es with
           | [] => ([], h)
           | e :: r =>
               let '(v, h1) := eval_lit e h in
               let '(vs, h2) := go r h1 in (v :: vs, h2)
           end) elems h in
      alloc (OArr vs) h'
  | LObj props =>
      let '(ps, h') :=
        (fix go (es : list (string * lit)) (h : heap) : list (string * val) * heap :=
           match es with
           | [] => ([], h)
           | (k, e) :: r =>
               let '(v, h1) := eval_lit e h in
               let '(ps, h2) := go r h1 in ((k, v) :: ps, h2)
           end) props h in
      alloc (OObj ps) h'
  end.

(** Traversal of a list of values with a heap threaded through. *)
Fixpoint traverse {A B} (f : A -> heap -> option (B * heap)) (l : list A) (h : heap)
  : option (list B * heap) :=
  match l with
  | [] => Some ([], h)
  | x :: r =>
      match f x h with
      | None => None
      | Some (y, h1) =>
          match traverse f r h1 with
          | None => None
          | Some (ys, h2) => Some (y :: ys, h2)
          end
      end
  end.

Fixpoint mapM {A B} (f : A -> option B) (l : list A) : option (list B) :=
  match l with
  | [] => Some []
  | x :: r =>
      match f x with
      | None => None
      | Some y => match mapM f r with None => None | Some ys => Some (y :: ys) end
      end
  end.

(** Modelled from the spec: [deepClone] of [@theia/core/lib/common], which is
    imported but not part of this file.  "Deep-copy": every object reachable
    from the argument is copied into a newly allocated object; a value that
    is not an object of this heap is returned as it is.  The recursion
    follows references, so it carries fuel; running out of fuel stands for
    the stack overflow on a cyclic argument. *)
Fixpoint deepClone_fuel (n : nat) (v : val) (h : heap) : option (val * heap) :=
  match v with
  | VStr _ | VExt _ => Some (v, h)
  | VRef l =>
      match n with
      | 0 => None
      | S n' =>
          match h !! l with
          | None => None
          | Some (OArr elems) =>
              match traverse (deepClone_fuel n') elems h with
              | None => None
              | Some (vs, h') => Some (alloc (OArr vs) h')
              end
          | Some (OObj props) =>
              match traverse (fun kv h => match deepClone_fuel n' (snd kv) h with
                                          | None => None
                                          | Some (v', h') => Some ((fst kv, v'), h')
                                          end) props h with
              | None => None
              | Some (ps, h') => Some (alloc (OObj ps) h')
              end
          end
      end
  end.

Definition deepClone (v : val) (h : heap) : option (val * heap) :=
  deepClone_fuel (length h) v h.

(** The tree a value reads as: what [JSON.stringify] walks.  A reference
    chain longer than the heap has a cycle, on which [JSON.stringify]
    throws. *)
Fixpoint reify_fuel (n : nat) (h : heap) (v : val) : option JSON :=
  match v with
  | VStr s => Some (JStr s)
  | VExt j => Some j
  | VRef l =>
      match n with
      | 0 => None
      | S n' =>
          match h !! l with
          | None => None
          | Some (OArr elems) =>
              match mapM (reify_fuel n' h) elems with
              | None => None
              | Some js => Some (JArr js)
              end
          | Some (OObj props) =>
              match mapM (fun kv => match reify_fuel n' h (snd kv) with
                                    | None => None
                                    | Some j => Some (fst kv, j)
                                    end) props with
              | None => None
              | Some js => Some (JObj js)
              end
          end
      end
  end.

Definition reify (h : heap) (v : val) : option JSON := reify_fuel (length h) h v.

Definition JSON_stringify (v : val) (h : heap) : option string :=
  match reify h v with
  | None => None
  | Some j => Some (render j)
  end.

End Heap.

Export Heap.

(** ** Module-level constants: the schema template and the two name arrays *)

Module Template.

Definition taskSchemaId : string := "vscode://schemas/tasks".

Definition newline : string := String "010"%char EmptyString.

Definition commandSchema_lit : lit :=
  LObj [("type", LStr "string");
        ("description", LStr "The actual command or script to execute")].

Definition commandArgSchema_lit : lit :=
  LObj [("type", LStr "array");
        ("description",
          LStr "A list of strings, each one being one argument to pass to the command");
        ("items", LObj [("type", LStr "string")])].

Definition commandOptionsSchema_lit : lit :=
  LObj [("type", LStr "object");
        ("description", LStr "The command options used when the command is executed");
        ("properties", LObj [
          ("cwd", LObj [
            ("type", LStr "string");
            ("description", LStr "The directory in which the command will be executed");
            ("default", LStr "${workspaceFolder}")]);
          ("env", LObj [
            ("type", LStr "object");
            ("description", LStr "The environment of the executed program or shell. If omitted the parent process' environment is used")]);
          ("shell", LObj [
            ("type", LStr "object");
            ("description", LStr "Configuration of the shell when task type is `shell`");
            ("properties", LObj [
              ("executable", LObj [
                ("type", LStr "string");
                ("description", LStr "The shell to use")]);
              ("args", LObj [
                ("type", LStr "array");
                ("description",
                  LStr ("The arguments to be passed to the shell executable to run in command mode"
                        +:+ newline
                        +:+ "                        (e.g ['-c'] for bash or ['/S', '/C'] for cmd.exe)"));
                ("items", LObj [("type", LStr "string")])])])])])].

(** [const problemMatcherNames: string[] = []] and
    [const supportedTaskTypes = ['shell', 'process']]. *)
Definition problemMatcherNames_lit : lit := LArr [].
Definition supportedTaskTypes_lit : lit := LArr (map LStr defaultTaskTypes).

(** The per-platform override objects of [windows], [osx] and [linux]. *)
Definition platform_lit (description : string)
    (commandSchema commandArgSchema commandOptionsSchema : val) : lit :=
  LObj [("type", LStr "object");
        ("description", LStr description);
        ("properties", LObj [
          ("command", LVal commandSchema);
          ("args", LVal commandArgSchema);
          ("options", LVal commandOptionsSchema)])].

(** [taskConfigurationSchema]; the five variables it mentions are given by
    their values. *)
Definition taskConfigurationSchema_lit
    (commandSchema commandArgSchema commandOptionsSchema
     problemMatcherNames supportedTaskTypes : val) : lit :=
  LObj [
    ("$id", LStr taskSchemaId);
    ("oneOf", LArr [
      LObj [("allOf", LArr [
        LObj [
          ("type", LStr "object");
          ("required", LArr [LStr "type"]);
          ("properties", LObj [
            ("label", LObj [
              ("type", LStr "string");
              ("description", LStr "A unique string that identifies the task that is also used as task's user interface label")]);
            ("type", LObj [
              ("type", LStr "string");
              ("enum", LVal supportedTaskTypes);
              ("default", LStr "shell");
              ("description", LStr "Determines what type of process will be used to execute the task. Only shell types will have output shown on the user interface")]);
            ("command", LVal commandSchema);
            ("args", LVal commandArgSchema);
            ("options", LVal commandOptionsSchema);
            ("windows", platform_lit
               "Windows specific command configuration that overrides the command, args, and options"
               commandSchema commandArgSchema commandOptionsSchema);
            ("osx", platform_lit
               "MacOS specific command configuration that overrides the command, args, and options"
               commandSchema commandArgSchema commandOptionsSchema);
            ("linux", platform_lit
               "Linux specific command configuration that overrides the default command, args, and options"
               commandSchema commandArgSchema commandOptionsSchema);
            ("problemMatcher", LObj [
              ("oneOf", LArr [
                LObj [
                  ("type", LStr "string");
                  ("description", LStr "Name of the problem matcher to parse the output of the task");
                  ("enum", LVal problemMatcherNames)];
                LObj [
                  ("type", LStr "object");
                  ("description", LStr "User defined problem matcher(s) to parse the output of the task")];
                LObj [
                  ("type", LStr "array");
                  ("description", LStr "Name(s) of the problem matcher(s) to parse the output of the task");
                  ("items", LObj [
                    ("type", LStr "string");
                    ("enum", LVal problemMatcherNames)])]])])])]])]])].

(** The constants of the module, as bound when it has been loaded. *)
Record Bindings := {
  commandSchema : val;
  commandArgSchema : val;
  commandOptionsSchema : val;
  problemMatcherNames : val;
  supportedTaskTypes : val;
  taskConfigurationSchema : val
}.

(** Loading the module evaluates the [const] declarations in order. *)
Definition evaluate_module (h : heap) : Bindings * heap :=
  let '(cs, h) := eval_lit commandSchema_lit h in
  let '(ca, h) := eval_lit commandArgSchema_lit h in
  let '(co, h) := eval_lit commandOptionsSchema_lit h in
  let '(pm, h) := eval_lit problemMatcherNames_lit h in
  let '(st, h) := eval_lit supportedTaskTypes_lit h in
  let '(tc, h) := eval_lit (taskConfigurationSchema_lit cs ca co pm st) h in
  ({| commandSchema := cs; commandArgSchema := ca; commandOptionsSchema := co;
      problemMatcherNames := pm; supportedTaskTypes := st;
      taskConfigurationSchema := tc |}, h).

Definition consts : Bindings := Eval vm_compute in fst (evaluate_module []).
Definition moduleHeap : heap := Eval vm_compute in snd (evaluate_module []).

End Template.

Export Template.

(** ** Schema assembly *)

Module Assembly.

(** [a.length = 0] on an array. *)
Definition truncate (a : val) (h : heap) : heap :=
  match a with
  | VRef l => match h !! l with
              | Some (OArr _) => <[l := OArr []]> h
              | _ => h
              end
  | _ => h
  end.

(** [a.push(...items)] on an array. *)
Definition push (a : val) (items : list string) (h : heap) : heap :=
  match a with
  | VRef l => match h !! l with
              | Some (OArr elems) => <[l := OArr (elems ++ map VStr items)]> h
              | _ => h
              end
  | _ => h
  end.

(** The two module-level arrays. *)
Inductive NameSet := TaskTypes | MatcherNames.

Definition name_array (s : NameSet) : val :=
  match s with
  | TaskTypes => supportedTaskTypes consts
  | MatcherNames => problemMatcherNames consts
  end.

Definition as_string (v : val) : option string :=
  match v with VStr s => Some s | _ => None end.

(** The strings an array holds. *)
Definition read_names (a : val) (h : heap) : list string :=
  match a with
  | VRef l => match h !! l with
              | Some (OArr elems) => omap as_string elems
              | _ => []
              end
  | _ => []
  end.

(** [{...o}]: the own properties of an object.  The argument of the spread
    in [getTaskSchema] has type [IJSONSchema], an object. *)
Definition spread (v : val) (h : heap) : option (list (string * val)) :=
  match v with
  | VRef l => match h !! l with
              | Some (OObj props) => Some props
              | _ => None
              end
  | _ => None
  end.

(** [getTaskSchema()]; [inputs] is [inputsSchema.definitions!.inputs] of the
    variable resolver, an object of another module. *)
Definition getTaskSchema (inputs : JSON) (h : heap) : option (val * heap) :=
  match deepClone (taskConfigurationSchema consts) h with
  | None => None
  | Some (clone, h) =>
      match spread clone h with
      | None => None
      | Some props =>
          let '(items, h) := alloc (OObj props) h in
          let '(tasks, h) := alloc (OObj [("type", VStr "array"); ("items", items)]) h in
          let '(properties, h) :=
            alloc (OObj [("tasks", tasks); ("inputs", VExt inputs)]) h in
          Some (alloc (OObj [("properties", properties)]) h)
      end
  end.

(** [getStrigifiedTaskSchema()] *)
Definition getStrigifiedTaskSchema (inputs : JSON) (h : heap) : option (string * heap) :=
  match getTaskSchema inputs h with
  | None => None
  | Some (schema, h') =>
      match JSON_stringify schema h' with
      | None => None
      | Some s => Some (s, h')
      end
  end.

(** The tree a literal reads as once every variable in it is replaced by the
    tree that variable reads as. *)
Fixpoint tree_of_lit (e : lit) : JSON :=
  match e with
  | LStr s => JStr s
  | LVal (VStr s) => JStr s
  | LVal (VExt j) => j
  | LVal (VRef _) => JNull
  | LArr elems => JArr (map tree_of_lit elems)
  | LObj props => JObj (map (fun kv => (fst kv, tree_of_lit (snd kv))) props)
  end.

Definition names_tree (names : list string) : JSON := JArr (map JStr names).

(** What [taskConfigurationSchema] reads as when the two name arrays hold
    [types] and [matchers]. *)
Definition templateTree (types matchers : list string) : JSON :=
  tree_of_lit (taskConfigurationSchema_lit
                 (VExt (tree_of_lit commandSchema_lit))
                 (VExt (tree_of_lit commandArgSchema_lit))
                 (VExt (tree_of_lit commandOptionsSchema_lit))
                 (VExt (names_tree matchers))
                 (VExt (names_tree types))).

(** What the result of [getTaskSchema] reads as. *)
Definition schemaTree (inputs : JSON) (types matchers : list string) : JSON :=
  JObj [("properties",
         JObj [("tasks", JObj [("type", JStr "array");
                               ("items", templateTree types matchers)]);
               ("inputs", inputs)])].

(** The first 35 objects of the heap are those of the module, the two name
    arrays holding [types] and [matchers]. *)
Definition template_heap (types matchers : list string) : heap :=
  push (supportedTaskTypes consts) types
    (truncate (supportedTaskTypes consts)
       (push (problemMatcherNames consts) matchers
          (truncate (problemMatcherNames consts) moduleHeap))).

Definition heap_inv (h : heap) (types matchers : list string) : Prop :=
  exists rest, h = template_heap types matchers ++ rest.

(** What may happen to the heap after an assembly: a name array is cleared,
    a name array is pushed to, or the schema is assembled once more. *)
Inductive HeapOp :=
| OpTruncate (s : NameSet)
| OpPush (s : NameSet) (names : list string)
| OpAssemble (inputs : JSON).

Definition apply_op (o : HeapOp) (h : heap) : heap :=
  match o with
  | OpTruncate s => truncate (name_array s) h
  | OpPush s names => push (name_array s) names h
  | OpAssemble inputs =>
      match getTaskSchema inputs h with
      | Some (_, h') => h'
      | None => h
      end
  end.

Definition apply_ops (ops : list HeapOp) (h : heap) : heap :=
  fold_left (fun h o => apply_op o h) ops h.

(** Two heaps hold the same objects at the locations from [a] up to [b]. *)
Definition agrees_on (a b : nat) (h1 h2 : heap) : Prop :=
  forall l, a <= l < b -> h2 !! l = h1 !! l.

(** The schema path to the type enum and to the two matcher-name enums. *)
Definition path (ks : list (string + nat)) (j : JSON) : option JSON :=
  fold_left (fun o k => match o with
                        | None => None
                        | Some j => match k with inl s => get s j | inr i => at_index i j end
                        end) ks (Some j).

Definition task_object_path : list (string + nat) :=
  [inl "properties"; inl "tasks"; inl "items"; inl "oneOf"; inr 0; inl "allOf"; inr 0;
   inl "properties"].

Definition type_enum (schema : JSON) : option JSON :=
  path (task_object_path ++ [inl "type"; inl "enum"]) schema.

Definition matcher_enum (schema : JSON) : option JSON :=
  path (task_object_path ++ [inl "problemMatcher"; inl "oneOf"; inr 0; inl "enum"]) schema.

Definition matcher_items_enum (schema : JSON) : option JSON :=
  path (task_object_path ++ [inl "problemMatcher"; inl "oneOf"; inr 2; inl "items"; inl "enum"])
       schema.

End Assembly.

Export Assembly.


(** ** The component: collaborators, state and methods *)

Module Component.

(** The resource store [InMemoryResources] and the schema-association index
    [JsonSchemaStore] are injected; only the calls made on them are known.
    A call returns the collaborator's next state, or [None] when it throws
    (the collaborator is then left as it was). *)
Class InMemoryResources (R : Type) := {
  resources_update : string -> string -> R -> option R;
  resources_add : string -> string -> R -> option R;
  (** whether a resource exists under a URI *)
  resources_has : string -> R -> bool
}.

Class JsonSchemaStore (J : Type) := {
  registerSchema : list string -> string -> J -> option J
}.

(** The store of the specification: "a resource store with update(id,
    content) (fails if absent) and add(id, content) (registers new)", used
    by this component alone under the schema identifier, and an index whose
    [registerSchema] does not fail. *)
Class Lawful (R J : Type) `{InMemoryResources R} `{JsonSchemaStore J} : Prop := {
  update_present : forall uri c r,
    resources_has uri r = true ->
    exists r', resources_update uri c r = Some r' /\ resources_has uri r' = true;
  update_absent : forall uri c r,
    resources_has uri r = false -> resources_update uri c r = None;
  add_absent : forall uri c r,
    resources_has uri r = false ->
    exists r', resources_add uri c r = Some r' /\ resources_has uri r' = true;
  registerSchema_total : forall fileMatch url j,
    exists j', registerSchema fileMatch url j = Some j'
}.

Inductive Error :=
| ResourceError      (* thrown by [inmemoryResources] *)
| SchemaStoreError   (* thrown by [jsonSchemaStore] *)
| ServerError        (* the promise of [taskServer.getRegisteredTaskTypes()] rejected *)
| StringifyError.    (* thrown by [deepClone] or [JSON.stringify] *)

Inductive result (A : Type) :=
| Ok (a : A)
| Throw (e : Error).
Arguments Ok {A} a.
Arguments Throw {A} e.

(** The three events [init] subscribes to. *)
Inductive Emitter :=
| onDidChangeProblemMatcher
| onDidRegisterTaskDefinition
| onDidUnregisterTaskDefinition.

(** The two callbacks [init] registers. *)
Inductive Handler :=
| callUpdateProblemMatcherNames     (* [() => this.updateProblemMatcherNames()] *)
| callUpdateSupportedTaskTypes.     (* [() => this.updateSupportedTaskTypes()] *)

(** Who awaits the promise of a [getRegisteredTaskTypes()] call. *)
Inductive Caller :=
| byUpdateSupportedTaskTypes
| byClient.

(** A suspended [async] method. *)
Inductive Continuation :=
| AfterServer (c : Caller)
    (* [getRegisteredTaskTypes] at [await this.taskServer.getRegisteredTaskTypes()] *)
| AfterTypes (r : result (list string)).
    (* [updateSupportedTaskTypes] at [await this.getRegisteredTaskTypes()],
       whose promise has settled with [r] *)

(** What the component does to its collaborators, in order.  [EvReplaced]
    marks the moment a name array has been cleared and refilled. *)
Inductive Event :=
| EvServerCall
| EvReplaced (s : NameSet) (names : list string)
| EvUpdate (uri content : string) (ok : bool)
| EvAdd (uri content : string) (ok : bool)
| EvRegisterSchema (fileMatch : list string) (url : string) (ok : bool)
| EvSubscribe (e : Emitter) (h : Handler).

Section Methods.

Context {R J : Type} `{InMemoryResources R} `{JsonSchemaStore J}.

Record World := mkWorld {
  memory : heap;
  inputsSchema_inputs : JSON;             (* [inputsSchema.definitions!.inputs] *)
  problemMatcherRegistry : list string;   (* the [name]s of [getAll()] *)
  taskDefinitionRegistry : list string;   (* the [taskType]s of [getAll()] *)
  inmemoryResources : R;
  jsonSchemaStore : J;
  subscriptions : list (Emitter * Handler);
  pending : list Continuation;
  trace : list Event
}.

Definition with_memory (f : heap -> heap) (w : World) : World :=
  mkWorld (f (memory w)) (inputsSchema_inputs w) (problemMatcherRegistry w)
    (taskDefinitionRegistry w) (inmemoryResources w) (jsonSchemaStore w)
    (subscriptions w) (pending w) (trace w).

Definition with_problemMatcherRegistry (names : list string) (w : World) : World :=
  mkWorld (memory w) (inputsSchema_inputs w) names
    (taskDefinitionRegistry w) (inmemoryResources w) (jsonSchemaStore w)
    (subscriptions w) (pending w) (trace w).

Definition with_taskDefinitionRegistry (types : list string) (w : World) : World :=
  mkWorld (memory w) (inputsSchema_inputs w) (problemMatcherRegistry w)
    types (inmemoryResources w) (jsonSchemaStore w)
    (subscriptions w) (pending w) (trace w).

Definition with_inmemoryResources (r : R) (w : World) : World :=
  mkWorld (memory w) (inputsSchema_inputs w) (problemMatcherRegistry w)
    (taskDefinitionRegistry w) r (jsonSchemaStore w)
    (subscriptions w) (pending w) (trace w).

Definition with_jsonSchemaStore (j : J) (w : World) : World :=
  mkWorld (memory w) (inputsSchema_inputs w) (problemMatcherRegistry w)
    (taskDefinitionRegistry w) (inmemoryResources w) j
    (subscriptions w) (pending w) (trace w).

Definition with_subscriptions (f : list (Emitter * Handler) -> list (Emitter * Handler))
    (w : World) : World :=
  mkWorld (memory w) (inputsSchema_inputs w) (problemMatcherRegistry w)
    (taskDefinitionRegistry w) (inmemoryResources w) (jsonSchemaStore w)
    (f (subscriptions w)) (pending w) (trace w).

Definition with_pending (f : list Continuation -> list Continuation) (w : World) : World :=
  mkWorld (memory w) (inputsSchema_inputs w) (problemMatcherRegistry w)
    (taskDefinitionRegistry w) (inmemoryResources w) (jsonSchemaStore w)
    (subscriptions w) (f (pending w)) (trace w).

Definition with_event (e : Event) (w : World) : World :=
  mkWorld (memory w) (inputsSchema_inputs w) (problemMatcherRegistry w)
    (taskDefinitionRegistry w) (inmemoryResources w) (jsonSchemaStore w)
    (subscriptions w) (pending w) (trace w ++ [e]).

(** The contents of the two module-level arrays. *)
Definition supportedTaskTypes_of (w : World) : list string :=
  read_names (supportedTaskTypes consts) (memory w).

Definition problemMatcherNames_of (w : World) : list string :=
  read_names (problemMatcherNames consts) (memory w).

(** The serialized schema of the arrays' current contents. *)
Definition schema_content (w : World) : string :=
  render (schemaTree (inputsSchema_inputs w) (supportedTaskTypes_of w)
            (problemMatcherNames_of w)).

(** *** A state monad whose state survives a throw *)

Definition M (A : Type) : Type := World -> result A * World.

Definition ret {A} (a : A) : M A := fun w => (Ok a, w).

Definition throw {A} (e : Error) : M A := fun w => (Throw e, w).

Definition bind {A B} (m : M A) (k : A -> M B) : M B :=
  fun w => match m w with
           | (Ok a, w') => k a w'
           | (Throw e, w') => (Throw e, w')
           end.

(** [try { m } catch (e) { handler }] *)
Definition try_catch {A} (m : M A) (handler : Error -> M A) : M A :=
  fun w => match m w with
           | (Ok a, w') => (Ok a, w')
           | (Throw e, w') => handler e w'
           end.

Definition modify (f : World -> World) : M unit := fun w => (Ok tt, f w).

Definition gets {A} (f : World -> A) : M A := fun w => (Ok (f w), w).

End Methods.

Arguments World R J : clear implicits.
Arguments M R J A : clear implicits.

Declare Scope js_scope.
Delimit Scope js_scope with js.
Notation "x <- m ;; k" := (bind m (fun x => k))
  (at level 100, m at next level, right associativity) : js_scope.
Notation "m ;; k" := (bind m (fun _ => k))
  (at level 100, right associativity) : js_scope.

Section Methods2.

Context {R J : Type} `{InMemoryResources R} `{JsonSchemaStore J}.

Local Open Scope js_scope.

Abbreviation M := (M R J).
Abbreviation World := (World R J).

(** [new URI(taskSchemaId)] and its [toString()]: the URI is kept as the
    string it was built from. *)
Definition taskSchemaUri : string := taskSchemaId.

(** [this.inmemoryResources.update(uri, content)] *)
Definition inmemoryResources_update (uri content : string) : M unit :=
  fun w => match resources_update uri content (inmemoryResources w) with
           | Some r => (Ok tt, with_event (EvUpdate uri content true)
                                 (with_inmemoryResources r w))
           | None => (Throw ResourceError, with_event (EvUpdate uri content false) w)
           end.

(** [this.inmemoryResources.add(uri, content)] *)
Definition inmemoryResources_add (uri content : string) : M unit :=
  fun w => match resources_add uri content (inmemoryResources w) with
           | Some r => (Ok tt, with_event (EvAdd uri content true)
                                 (with_inmemoryResources r w))
           | None => (Throw ResourceError, with_event (EvAdd uri content false) w)
           end.

(** [this.jsonSchemaStore.registerSchema({ fileMatch, url })] *)
Definition jsonSchemaStore_registerSchema (fileMatch : list string) (url : string) : M unit :=
  fun w => match registerSchema fileMatch url (jsonSchemaStore w) with
           | Some j => (Ok tt, with_event (EvRegisterSchema fileMatch url true)
                                 (with_jsonSchemaStore j w))
           | None => (Throw SchemaStoreError,
                      with_event (EvRegisterSchema fileMatch url false) w)
           end.

(** [this.getStrigifiedTaskSchema()] *)
Definition getStrigifiedTaskSchema_m : M string :=
  fun w => match getStrigifiedTaskSchema (inputsSchema_inputs w) (memory w) with
           | Some (s, h) => (Ok s, with_memory (fun _ => h) w)
           | None => (Throw StringifyError, w)
           end.

(** The [try] statement of [update()]. *)
Definition publish (schemaContent : string) : M unit :=
  try_catch
    (inmemoryResources_update taskSchemaUri schemaContent)
    (fun _ =>
       inmemoryResources_add taskSchemaUri schemaContent ;;
       jsonSchemaStore_registerSchema ["tasks.json"] taskSchemaUri).

(** [update()] *)
Definition update : M unit :=
  schemaContent <- getStrigifiedTaskSchema_m ;;
  publish schemaContent.

(** [a.length = 0; a.push(...names)] on one of the two arrays. *)
Definition replace_names (s : NameSet) (names : list string) : M unit :=
  modify (with_memory (truncate (name_array s))) ;;
  modify (with_memory (push (name_array s) names)) ;;
  modify (with_event (EvReplaced s names)).

(** [updateProblemMatcherNames()] *)
Definition updateProblemMatcherNames : M unit :=
  all <- gets problemMatcherRegistry ;;
  let matcherNames := map normalizeMatcherName all in
  replace_names MatcherNames matcherNames ;;
  update.

(** [getRegisteredTaskTypes()] up to its [await]: the server is called and
    the method suspends. *)
Definition getRegisteredTaskTypes_call (c : Caller) : M unit :=
  modify (with_event EvServerCall) ;;
  modify (with_pending (fun p => p ++ [AfterServer c])).

(** [getRegisteredTaskTypes()] from its [await] on: [server] is what the
    promise of the server settled with, [None] for a rejection. *)
Definition getRegisteredTaskTypes_resume (server : option (list string)) : M (list string) :=
  match server with
  | None => throw ServerError
  | Some serverSupportedTypes =>
      browserSupportedTypes <- gets taskDefinitionRegistry ;;
      ret (mergeTaskTypes serverSupportedTypes browserSupportedTypes)
  end.

(** [updateSupportedTaskTypes()] up to its [await]. *)
Definition updateSupportedTaskTypes_call : M unit :=
  getRegisteredTaskTypes_call byUpdateSupportedTaskTypes.

(** [updateSupportedTaskTypes()] from its [await] on. *)
Definition updateSupportedTaskTypes_resume (r : result (list string)) : M unit :=
  match r with
  | Throw e => throw e
  | Ok allTypes =>
      replace_names TaskTypes allTypes ;;
      update
  end.

(** [updateSupportedTaskTypes()] from the moment the server promise has
    settled, when nothing else runs between its two continuations. *)
Definition updateSupportedTaskTypes_settled (server : option (list string)) : M unit :=
  fun w => let '(r, w') := getRegisteredTaskTypes_resume server w in
           updateSupportedTaskTypes_resume r w'.

(** [emitter(callback)] *)
Definition subscribe (e : Emitter) (h : Handler) : M unit :=
  modify (with_subscriptions (fun l => l ++ [(e, h)])) ;;
  modify (with_event (EvSubscribe e h)).

(** [init()], up to the [await] inside [updateSupportedTaskTypes()], whose
    promise [init] does not await. *)
Definition init : M unit :=
  updateProblemMatcherNames ;;
  updateSupportedTaskTypes_call ;;
  subscribe onDidChangeProblemMatcher callUpdateProblemMatcherNames ;;
  subscribe onDidRegisterTaskDefinition callUpdateSupportedTaskTypes ;;
  subscribe onDidUnregisterTaskDefinition callUpdateSupportedTaskTypes.

(** The subscriptions [init] makes. *)
Definition init_subscriptions : list (Emitter * Handler) :=
  [(onDidChangeProblemMatcher, callUpdateProblemMatcherNames);
   (onDidRegisterTaskDefinition, callUpdateSupportedTaskTypes);
   (onDidUnregisterTaskDefinition, callUpdateSupportedTaskTypes)].

Definition run_handler (h : Handler) : M unit :=
  match h with
  | callUpdateProblemMatcherNames => updateProblemMatcherNames
  | callUpdateSupportedTaskTypes => updateSupportedTaskTypes_call
  end.

Definition Emitter_eqb (a b : Emitter) : bool :=
  match a, b with
  | onDidChangeProblemMatcher, onDidChangeProblemMatcher
  | onDidRegisterTaskDefinition, onDidRegisterTaskDefinition
  | onDidUnregisterTaskDefinition, onDidUnregisterTaskDefinition => true
  | _, _ => false
  end.

(** An emitter fires: every callback subscribed to it runs, in subscription
    order; what a callback throws goes to the emitter. *)
Definition fire (e : Emitter) (w : World) : World :=
  fold_left (fun w sub => if Emitter_eqb (fst sub) e then snd (run_handler (snd sub) w) else w)
            (subscriptions w) w.

(** What happens to the component. *)
Inductive Input :=
| PostConstruct
    (* the container calls [init()] *)
| MatchersChanged (names : list string)
    (* the matcher registry now holds [names] and fires its event *)
| DefinitionRegistered (types : list string)
    (* the definition registry now holds [types] and fires its register event *)
| DefinitionUnregistered (types : list string)
    (* the definition registry now holds [types] and fires its unregister event *)
| ClientQuery
    (* somebody calls the public [getRegisteredTaskTypes()] *)
| ServerSettles (i : nat) (server : option (list string))
    (* the server promise awaited by the [i]th suspended method settles *)
| Resume (i : nat).
    (* the [i]th suspended method, an [updateSupportedTaskTypes], resumes *)

Definition step (i : Input) (w : World) : World :=
  match i with
  | PostConstruct => snd (init w)
  | MatchersChanged names =>
      fire onDidChangeProblemMatcher (with_problemMatcherRegistry names w)
  | DefinitionRegistered types =>
      fire onDidRegisterTaskDefinition (with_taskDefinitionRegistry types w)
  | DefinitionUnregistered types =>
      fire onDidUnregisterTaskDefinition (with_taskDefinitionRegistry types w)
  | ClientQuery => snd (getRegisteredTaskTypes_call byClient w)
  | ServerSettles i server =>
      match pending w !! i with
      | Some (AfterServer c) =>
          let '(r, w') := getRegisteredTaskTypes_resume server (with_pending (delete i) w) in
          match c with
          | byClient => w'
          | byUpdateSupportedTaskTypes => with_pending (fun p => p ++ [AfterTypes r]) w'
          end
      | _ => w
      end
  | Resume i =>
      match pending w !! i with
      | Some (AfterTypes r) =>
          snd (updateSupportedTaskTypes_resume r (with_pending (delete i) w))
      | _ => w
      end
  end.

Definition run (inputs : list Input) (w : World) : World :=
  fold_left (fun w i => step i w) inputs w.

(** The world right after the module has been loaded and the component
    constructed. *)
Definition initial (inputs : JSON) (matchers types : list string) (r : R) (j : J) : World :=
  mkWorld moduleHeap inputs matchers types r j [] [] [].

(** The heap holds the module's objects, followed by what was allocated
    since. *)
Definition heap_ok (h : heap) : Prop :=
  heap_inv h (read_names (supportedTaskTypes consts) h)
             (read_names (problemMatcherNames consts) h).

Definition world_inv (w : World) : Prop :=
  heap_inv (memory w) (supportedTaskTypes_of w) (problemMatcherNames_of w).

End Methods2.

End Component.

Export Component.

(** ** What is observed of a run *)

Module Observations.

(** An event without the strings it carries. *)
Inductive Kind :=
| KServerCall
| KReplaced (s : NameSet)
| KUpdate (ok : bool)
| KAdd (ok : bool)
| KRegisterSchema (ok : bool)
| KSubscribe (e : Emitter).

Definition kind_of (e : Event) : Kind :=
  match e with
  | EvServerCall => KServerCall
  | EvReplaced s _ => KReplaced s
  | EvUpdate _ _ ok => KUpdate ok
  | EvAdd _ _ ok => KAdd ok
  | EvRegisterSchema _ _ ok => KRegisterSchema ok
  | EvSubscribe e _ => KSubscribe e
  end.

(** The calls a publication makes. *)
Definition is_publication_event (e : Event) : bool :=
  match e with
  | EvUpdate _ _ _ | EvAdd _ _ _ | EvRegisterSchema _ _ _ => true
  | _ => false
  end.

Definition publication_events (t : list Event) : list Event :=
  filter (fun e => is_publication_event e = true) t.

(** Every call of [update()] that gets to the store makes exactly one
    [inmemoryResources.update] call, its first. *)
Definition is_update_attempt (e : Event) : bool :=
  match e with EvUpdate _ _ _ => true | _ => false end.

Definition publication_count (t : list Event) : nat :=
  length (filter (fun e => is_update_attempt e = true) t).

(** The two paths of a publication that succeeds. *)
Definition update_path (content : string) : list Event :=
  [EvUpdate taskSchemaUri content true].

Definition register_path (content : string) : list Event :=
  [EvUpdate taskSchemaUri content false;
   EvAdd taskSchemaUri content true;
   EvRegisterSchema ["tasks.json"] taskSchemaUri true].

Definition is_update_path_event (e : Event) : Prop :=
  exists content, e = EvUpdate taskSchemaUri content true.

(** The content handed to the store by the latest publication. *)
Definition last_content (t : list Event) : option string :=
  fold_left (fun o e => match e with EvUpdate _ c _ => Some c | _ => o end) t None.

(** The record of publications of a run with a store that nobody else
    writes to: none yet and no resource, or a resource and one registration
    followed by updates only. *)
Definition publications_ok {R J : Type} `{InMemoryResources R} (w : World R J) : Prop :=
  world_inv w /\
  ((resources_has taskSchemaUri (inmemoryResources w) = false /\
    publication_events (trace w) = []) \/
   (resources_has taskSchemaUri (inmemoryResources w) = true /\
    exists c rest, publication_events (trace w) = register_path c ++ rest /\
                   Forall is_update_path_event rest)).

(** How many times a name carries the sigil in front. *)
Fixpoint leading_sigils (s : string) : nat :=
  match s with
  | EmptyString => 0
  | String c r => if Ascii.eqb c "$" then S (leading_sigils r) else 0
  end.

(** The type enum and matcher-name enum as the specification words them. *)
Definition spec_type_enum (local remote : list string) : list string :=
  Array_sort (Set_from (defaultTaskTypes ++ local ++ remote)).

Definition spec_matcher_enum (registered : list string) : list string :=
  Array_sort (Set_from (map normalizeMatcherName registered)).

End Observations.

Export Observations.

(** ** Two concrete stores *)

Module Stores.

(** Modelled from the spec: the resource store behind [InMemoryResources],
    whose class is imported but not part of this file: "a resource store
    with update(id, content) (fails if absent) and add(id, content)
    (registers new)". *)
#[export] Instance map_resources : InMemoryResources (gmap string string) := {|
  resources_update uri content r :=
    match r !! uri with
    | Some _ => Some (<[uri := content]> r)
    | None => None
    end;
  resources_add uri content r := Some (<[uri := content]> r);
  resources_has uri r := match r !! uri with Some _ => true | None => false end
|}.

(** Modelled from the spec: the schema-association index behind
    [JsonSchemaStore]: "a schema-association index with
    registerSchema({fileMatch, url})"; it keeps the associations in the order
    they were made. *)
#[export] Instance list_schemas : JsonSchemaStore (list (list string * string)) := {|
  registerSchema fileMatch url j := Some (j ++ [(fileMatch, url)])
|}.

(** Modelled from the spec: "a failure to write (e.g., store unavailable)":
    a store on which every write throws. *)
Inductive Unavailable := unavailable.

#[export] Instance unavailable_resources : InMemoryResources Unavailable := {|
  resources_update _ _ _ := None;
  resources_add _ _ _ := None;
  resources_has _ _ := false
|}.

(** A stand-in for the [inputs] definition of the variable resolver. *)
Definition sample_inputs : JSON :=
  JObj [("type", JStr "array"); ("description", JStr "User inputs")].

(** The world at start: empty registries, an empty store, an empty index. *)
Definition world0 (matchers types : list string)
  : World (gmap string string) (list (list string * string)) :=
  initial sample_inputs matchers types ∅ [].

(** The same with the store that is not available. *)
Definition world_down (matchers types : list string)
  : World Unavailable (list (list string * string)) :=
  initial sample_inputs matchers types unavailable [].

End Stores.

Export Stores.

(** ** Counting store calls *)

Module Counting.

Definition is_add_call (e : Event) : bool :=
  match e with EvAdd _ _ _ => true | _ => false end.

Definition is_registerSchema_call (e : Event) : bool :=
  match e with EvRegisterSchema _ _ _ => true | _ => false end.

Definition is_server_call (e : Event) : bool :=
  match e with EvServerCall => true | _ => false end.

(** How often [inmemoryResources.add], [jsonSchemaStore.registerSchema] and
    [taskServer.getRegisteredTaskTypes] were called. *)
Definition add_count (t : list Event) : nat :=
  length (filter (fun e => is_add_call e = true) t).

Definition registerSchema_count (t : list Event) : nat :=
  length (filter (fun e => is_registerSchema_call e = true) t).

Definition server_call_count (t : list Event) : nat :=
  length (filter (fun e => is_server_call e = true) t).

(** A resource store on which [update] fails exactly when the resource is
    absent and [add] of an absent resource succeeds, whatever the schema
    index does. *)
Class ResourceLaws (R : Type) `{InMemoryResources R} : Prop := {
  laws_update_present : forall uri c r,
    resources_has uri r = true ->
    exists r', resources_update uri c r = Some r' /\ resources_has uri r' = true;
  laws_update_absent : forall uri c r,
    resources_has uri r = false -> resources_update uri c r = None;
  laws_add_absent : forall uri c r,
    resources_has uri r = false ->
    exists r', resources_add uri c r = Some r' /\ resources_has uri r' = true
}.

(** A schema index whose [registerSchema] throws. *)
Inductive Refusing := refusing.

#[export] Instance refusing_schemas : JsonSchemaStore Refusing := {|
  registerSchema _ _ _ := None
|}.

(** The world at start with the resource store of [map_resources] and an
    index that refuses. *)
Definition world_refused (matchers types : list string)
  : World (gmap string string) Refusing :=
  initial sample_inputs matchers types ∅ refusing.

(** The inputs that are notifications of the two registries. *)
Definition is_notification (i : Input) : bool :=
  match i with
  | MatchersChanged _ | DefinitionRegistered _ | DefinitionUnregistered _ => true
  | _ => false
  end.

Definition is_resume (i : Input) : bool :=
  match i with Resume _ => true | _ => false end.

(** The inputs that run [updateProblemMatcherNames]. *)
Definition may_change_matchers (i : Input) : bool :=
  match i with
  | PostConstruct | MatchersChanged _ | DefinitionRegistered _
  | DefinitionUnregistered _ => true
  | _ => false
  end.

End Counting.

Export Counting.

(** * Properties *)

(** ** Names *)

Lemma startsWith_sigil_cons name : startsWith ("$" +:+ name) "$" = true.
Proof. destruct name; reflexivity. Qed.

Lemma normalizeMatcherName_startsWith name :
  startsWith (normalizeMatcherName name) "$" = true.
Proof.
  unfold normalizeMatcherName. destruct (startsWith name "$") eqn:E; [exact E|].
  apply startsWith_sigil_cons.
Qed.

Lemma normalizeMatcherName_idem name :
  normalizeMatcherName (normalizeMatcherName name) = normalizeMatcherName name.
Proof.
  unfold normalizeMatcherName at 1. rewrite normalizeMatcherName_startsWith. reflexivity.
Qed.

(** The code-unit order is a total order. *)
Lemma ascii_compare_N a b : Ascii.compare a b = N.compare (N_of_ascii a) (N_of_ascii b).
Proof. reflexivity. Qed.

Lemma str_le_refl a : str_le a a.
Proof.
  unfold str_le, String.leb. induction a as [|x a IH]; [reflexivity|].
  simpl. rewrite ascii_compare_N, N.compare_refl. exact IH.
Qed.

Lemma str_le_trans a : forall b c, str_le a b -> str_le b c -> str_le a c.
Proof.
  unfold str_le, String.leb.
  induction a as [|x a IH]; intros [|y b] [|z c]; simpl; try (intros; reflexivity || discriminate).
  rewrite !ascii_compare_N.
  destruct (N.compare_spec (N_of_ascii x) (N_of_ascii y)) as [Exy|Lxy|Gxy];
    destruct (N.compare_spec (N_of_ascii y) (N_of_ascii z)) as [Eyz|Lyz|Gyz];
    try (intros; discriminate).
  - rewrite Exy, Eyz, N.compare_refl. apply IH.
  - intros _ _. rewrite Exy. apply N.compare_lt_iff in Lyz. rewrite Lyz. reflexivity.
  - intros _ _. rewrite <- Eyz. apply N.compare_lt_iff in Lxy. rewrite Lxy. reflexivity.
  - intros _ _. assert (L : (N_of_ascii x < N_of_ascii z)%N) by lia.
    apply N.compare_lt_iff in L. rewrite L. reflexivity.
Qed.

Lemma str_le_total a b : str_le a b \/ str_le b a.
Proof. apply String.leb_total. Qed.

Lemma str_le_antisym a b : str_le a b -> str_le b a -> a = b.
Proof. apply String.leb_antisym. Qed.

(** [Array.prototype.sort]: a sorted rearrangement. *)
Lemma sort_insert_perm x l : Permutation (x :: l) (sort_insert x l).
Proof.
  induction l as [|y r IH]; simpl; [reflexivity|].
  destruct (String.leb x y); [reflexivity|].
  rewrite perm_swap. apply perm_skip, IH.
Qed.

Lemma Array_sort_perm l : Permutation l (Array_sort l).
Proof.
  induction l as [|x r IH]; simpl; [reflexivity|].
  rewrite <- sort_insert_perm. apply perm_skip, IH.
Qed.

Lemma sort_insert_sorted x l :
  StronglySorted str_le l -> StronglySorted str_le (sort_insert x l).
Proof.
  induction 1 as [|y r Hr IH Hy]; simpl.
  - constructor; constructor.
  - destruct (String.leb x y) eqn:E.
    + constructor; [constructor; assumption|].
      constructor; [exact E|].
      eapply Forall_impl; [exact Hy|]. intros z Hz. eapply str_le_trans; eassumption.
    + constructor; [exact IH|].
      rewrite <- sort_insert_perm. constructor; [|exact Hy].
      destruct (str_le_total x y) as [Hxy|Hyx]; [|exact Hyx].
      unfold str_le in Hxy. congruence.
Qed.

Lemma Array_sort_sorted l : StronglySorted str_le (Array_sort l).
Proof.
  induction l as [|x r IH]; simpl; [constructor|]. apply sort_insert_sorted, IH.
Qed.

(** Whatever algorithm sorts, the result is the same: a list without
    duplicates has one sorted rearrangement. *)
Lemma sorted_perm_unique l1 : forall l2,
  StronglySorted str_le l1 -> StronglySorted str_le l2 ->
  Permutation l1 l2 -> l1 = l2.
Proof.
  induction l1 as [|x r IH]; intros l2 H1 H2 Hp.
  - apply Permutation_nil in Hp. congruence.
  - destruct l2 as [|y r2]; [apply Permutation_sym, Permutation_nil in Hp; discriminate|].
    apply StronglySorted_inv in H1 as [Hr Hx].
    apply StronglySorted_inv in H2 as [Hr2 Hy].
    assert (x = y) as <-.
    { assert (Hxin : x ∈ y :: r2) by (rewrite <- Hp; left).
      assert (Hyin : y ∈ x :: r) by (rewrite Hp; left).
      apply elem_of_cons in Hxin as [?|Hxin]; [assumption|].
      apply elem_of_cons in Hyin as [?|Hyin]; [congruence|].
      rewrite Forall_forall in Hx, Hy.
      apply str_le_antisym; [apply Hx | apply Hy]; assumption. }
    f_equal. apply IH; [assumption..|]. eapply Permutation_cons_inv. exact Hp.
Qed.

(** [new Set(...)]: the same elements, each once. *)
Lemma Set_add_elem s x y : y ∈ Set_add s x <-> y ∈ s \/ y = x.
Proof.
  unfold Set_add. destruct (existsb (String.eqb x) s) eqn:E.
  - split; [auto|]. intros [?| ->]; [assumption|].
    apply existsb_exists in E as (z & Hz & Hxz). apply String.eqb_eq in Hxz as ->.
    apply list_elem_of_In. exact Hz.
  - rewrite elem_of_app, list_elem_of_singleton. reflexivity.
Qed.

Lemma Set_add_NoDup s x : NoDup s -> NoDup (Set_add s x).
Proof.
  intros Hs. unfold Set_add. destruct (existsb (String.eqb x) s) eqn:E; [exact Hs|].
  apply NoDup_app. split; [exact Hs|]. split; [|apply NoDup_singleton].
  intros y Hy ->%list_elem_of_singleton.
  assert (existsb (String.eqb x) s = true); [|congruence].
  apply existsb_exists. exists x. split; [apply list_elem_of_In, Hy | apply String.eqb_refl].
Qed.

Lemma fold_Set_add_elem xs : forall s y,
  y ∈ fold_left Set_add xs s <-> y ∈ s \/ y ∈ xs.
Proof.
  induction xs as [|x r IH]; intros s y; simpl.
  - rewrite elem_of_nil. tauto.
  - rewrite IH, Set_add_elem, elem_of_cons. tauto.
Qed.

Lemma fold_Set_add_NoDup xs : forall s, NoDup s -> NoDup (fold_left Set_add xs s).
Proof.
  induction xs as [|x r IH]; intros s Hs; simpl; [exact Hs|].
  apply IH, Set_add_NoDup, Hs.
Qed.

Lemma Set_from_elem xs y : y ∈ Set_from xs <-> y ∈ xs.
Proof. unfold Set_from. rewrite fold_Set_add_elem, elem_of_nil. tauto. Qed.

Lemma Set_from_NoDup xs : NoDup (Set_from xs).
Proof. apply fold_Set_add_NoDup, NoDup_nil_2. Qed.

(** What [getRegisteredTaskTypes] computes from the two lists. *)
Lemma mergeTaskTypes_spec server browser :
  StronglySorted str_le (mergeTaskTypes server browser) /\
  NoDup (mergeTaskTypes server browser) /\
  forall x, x ∈ mergeTaskTypes server browser <-> x ∈ server \/ x ∈ browser.
Proof.
  unfold mergeTaskTypes. split; [apply Array_sort_sorted|]. split.
  - rewrite <- Array_sort_perm. apply Set_from_NoDup.
  - intros x. rewrite <- Array_sort_perm, Set_from_elem, elem_of_app. reflexivity.
Qed.

(** ** The heap *)

Lemma mapM_nil_intro {A B} (f : A -> option B) : mapM f [] = Some [].
Proof. reflexivity. Qed.

Lemma mapM_cons_intro {A B} (f : A -> option B) x r y ys :
  f x = Some y -> mapM f r = Some ys -> mapM f (x :: r) = Some (y :: ys).
Proof. intros H1 H2. simpl. rewrite H1, H2. reflexivity. Qed.

Lemma mapM_cons_inv {A B} (f : A -> option B) x r zs :
  mapM f (x :: r) = Some zs ->
  exists y ys, zs = y :: ys /\ f x = Some y /\ mapM f r = Some ys.
Proof.
  simpl. destruct (f x) as [y|]; [|discriminate].
  destruct (mapM f r) as [ys|]; [|discriminate].
  intros [= <-]. eauto.
Qed.

Lemma mapM_impl {A B} (f g : A -> option B) l ys :
  (forall x y, f x = Some y -> g x = Some y) ->
  mapM f l = Some ys -> mapM g l = Some ys.
Proof.
  intros Hfg. revert ys. induction l as [|x r IH]; intros ys; [trivial|].
  intros (y & ys' & -> & Hx & Hr)%mapM_cons_inv.
  apply mapM_cons_intro; auto.
Qed.

Lemma reify_obj_intro n h l ps js :
  h !! l = Some (OObj ps) ->
  mapM (fun kv => match reify_fuel n h (snd kv) with
                  | None => None
                  | Some j => Some (fst kv, j)
                  end) ps = Some js ->
  reify_fuel (S n) h (VRef l) = Some (JObj js).
Proof. intros H1 H2. simpl. rewrite H1, H2. reflexivity. Qed.

Lemma reify_arr_intro n h l vs js :
  h !! l = Some (OArr vs) ->
  mapM (reify_fuel n h) vs = Some js ->
  reify_fuel (S n) h (VRef l) = Some (JArr js).
Proof. intros H1 H2. simpl. rewrite H1, H2. reflexivity. Qed.

Lemma reify_prop_intro n h k v j :
  reify_fuel n h v = Some j ->
  (fun kv : string * val => match reify_fuel n h (snd kv) with
                            | None => None
                            | Some j => Some (fst kv, j)
                            end) (k, v) = Some (k, j).
Proof. intros Hv. simpl. rewrite Hv. reflexivity. Qed.

Lemma reify_str_intro n h s : reify_fuel n h (VStr s) = Some (JStr s).
Proof. destruct n; reflexivity. Qed.

Lemma reify_ext_intro n h j : reify_fuel n h (VExt j) = Some j.
Proof. destruct n; reflexivity. Qed.

Lemma reify_names n h names :
  mapM (reify_fuel n h) (map VStr names) = Some (map JStr names).
Proof.
  induction names as [|x r IH]; simpl; [reflexivity|].
  rewrite reify_str_intro, IH. reflexivity.
Qed.

(** What a successful read of a reference went through. *)
Lemma reify_ref_inv n h l j :
  reify_fuel n h (VRef l) = Some j ->
  exists n', n = S n' /\
    ((exists vs js, h !! l = Some (OArr vs) /\ j = JArr js /\
                    mapM (reify_fuel n' h) vs = Some js) \/
     (exists ps js, h !! l = Some (OObj ps) /\ j = JObj js /\
                    mapM (fun kv => match reify_fuel n' h (snd kv) with
                                    | None => None
                                    | Some j => Some (fst kv, j)
                                    end) ps = Some js)).
Proof.
  destruct n as [|n']; [discriminate|]. simpl. intros Hr.
  exists n'. split; [reflexivity|].
  destruct (h !! l) as [[vs|ps]|]; [| |discriminate].
  - left. destruct (mapM _ vs) as [js|] eqn:E; [|discriminate].
    injection Hr as <-. eauto.
  - right. destruct (mapM _ ps) as [js|] eqn:E; [|discriminate].
    injection Hr as <-. eauto.
Qed.

(** More fuel reads the same tree. *)
Lemma reify_fuel_mono n : forall m h v j,
  n <= m -> reify_fuel n h v = Some j -> reify_fuel m h v = Some j.
Proof.
  induction n as [|n IH]; intros m h v j Hle Hr.
  - destruct v; simpl in Hr; try discriminate;
      injection Hr as <-; [apply reify_str_intro | apply reify_ext_intro].
  - destruct v as [s|e|l].
    + injection Hr as <-. apply reify_str_intro.
    + injection Hr as <-. apply reify_ext_intro.
    + destruct m as [|m]; [lia|].
      apply reify_ref_inv in Hr as (n' & [= <-] & [(vs & js & Hl & -> & Hm)|(ps & js & Hl & -> & Hm)]).
      * eapply reify_arr_intro; [exact Hl|].
        eapply mapM_impl; [|exact Hm]. intros x y. apply IH. lia.
      * eapply reify_obj_intro; [exact Hl|].
        eapply mapM_impl; [|exact Hm]. intros [k x] y. simpl.
        destruct (reify_fuel n h x) as [jx|] eqn:E; [|discriminate].
        rewrite (IH m h x jx); [auto | lia | exact E].
Qed.

(** A heap that still holds every object of [h] reads the same trees. *)
Lemma reify_fuel_incl n : forall h h' v j,
  (forall l o, h !! l = Some o -> h' !! l = Some o) ->
  reify_fuel n h v = Some j -> reify_fuel n h' v = Some j.
Proof.
  induction n as [|n IH]; intros h h' v j Hincl Hr.
  - destruct v; simpl in Hr; try discriminate; exact Hr.
  - destruct v as [s|e|l]; try exact Hr.
    apply reify_ref_inv in Hr as (n' & [= <-] & [(vs & js & Hl & -> & Hm)|(ps & js & Hl & -> & Hm)]).
    + eapply reify_arr_intro; [apply Hincl; exact Hl|].
      eapply mapM_impl; [|exact Hm]. intros x y. apply IH. exact Hincl.
    + eapply reify_obj_intro; [apply Hincl; exact Hl|].
      eapply mapM_impl; [|exact Hm]. intros [k x] y. simpl.
      destruct (reify_fuel n h x) as [jx|] eqn:E; [|discriminate].
      rewrite (IH h h' x jx); auto.
Qed.

Lemma reify_fuel_app n h ext v j :
  reify_fuel n h v = Some j -> reify_fuel n (h ++ ext) v = Some j.
Proof.
  apply reify_fuel_incl. intros l o Hl. apply lookup_app_l_Some. exact Hl.
Qed.

Lemma agrees_on_refl a b h : agrees_on a b h h.
Proof. intros l _. reflexivity. Qed.

Lemma agrees_on_narrow a b a' b' h1 h2 :
  a <= a' -> b' <= b -> agrees_on a b h1 h2 -> agrees_on a' b' h1 h2.
Proof. intros Ha Hb Hag l Hl. apply Hag. lia. Qed.

Lemma agrees_on_app_l a b h ext h2 :
  b <= length h -> agrees_on a b (h ++ ext) h2 -> agrees_on a b h h2.
Proof.
  intros Hb Hag l Hl. rewrite (Hag l Hl). apply lookup_app_l. lia.
Qed.

(** Cloning a list of values one after the other. *)
Lemma traverse_spec {A A' C} (f : A -> heap -> option (A' * heap))
    (g : heap -> A -> option C) (g' : heap -> A' -> option C) :
  (forall h ext x c, g h x = Some c -> g (h ++ ext) x = Some c) ->
  (forall x h c, g h x = Some c ->
     exists x' ext, f x h = Some (x', h ++ ext) /\
       forall h'', agrees_on (length h) (length (h ++ ext)) (h ++ ext) h'' ->
                   g' h'' x' = Some c) ->
  forall l h cs, mapM (g h) l = Some cs ->
    exists l' ext, traverse f l h = Some (l', h ++ ext) /\
      forall h'', agrees_on (length h) (length (h ++ ext)) (h ++ ext) h'' ->
                  mapM (g' h'') l' = Some cs.
Proof.
  intros Hmono Hf. induction l as [|x r IH]; intros h cs Hm.
  - injection Hm as <-. exists [], []. rewrite app_nil_r. split; [reflexivity|].
    intros h'' _. reflexivity.
  - apply mapM_cons_inv in Hm as (c & cs' & -> & Hx & Hr).
    destruct (Hf x h c Hx) as (x' & e1 & Hfx & Hx').
    assert (Hr' : mapM (g (h ++ e1)) r = Some cs').
    { eapply mapM_impl; [|exact Hr]. intros y cy. apply Hmono. }
    destruct (IH (h ++ e1) cs' Hr') as (l' & e2 & Ht & Hl').
    exists (x' :: l'), (e1 ++ e2). simpl. rewrite Hfx, Ht.
    rewrite <- app_assoc. split; [reflexivity|].
    intros h'' Hag. apply mapM_cons_intro.
    + apply Hx'. rewrite app_assoc in Hag.
      eapply agrees_on_app_l; [reflexivity|].
      eapply agrees_on_narrow; [| |exact Hag]; [lia|].
      rewrite !length_app. lia.
    + apply Hl'. rewrite app_assoc in Hag.
      eapply agrees_on_narrow; [| |exact Hag]; [|lia].
      rewrite length_app. lia.
Qed.

(** [deepClone] succeeds on whatever reads as a tree; the clone lies in the
    newly allocated part of the heap and reads as the same tree in every
    heap that holds that part. *)
Lemma deepClone_fuel_reify n : forall v h j,
  reify_fuel n h v = Some j ->
  exists v' ext, deepClone_fuel n v h = Some (v', h ++ ext) /\
    (forall l, v = VRef l -> exists c, v' = VRef c /\ length h <= c < length (h ++ ext)) /\
    forall h'', agrees_on (length h) (length (h ++ ext)) (h ++ ext) h'' ->
                reify_fuel n h'' v' = Some j.
Proof.
  induction n as [|n IH]; intros v h j Hr.
  - destruct v as [s|e|l]; [| |discriminate].
    + exists (VStr s), []. rewrite app_nil_r. repeat split; [discriminate|]. intros; exact Hr.
    + exists (VExt e), []. rewrite app_nil_r. repeat split; [discriminate|]. intros; exact Hr.
  - destruct v as [s|e|l].
    + exists (VStr s), []. rewrite app_nil_r. repeat split; [discriminate|]. intros; exact Hr.
    + exists (VExt e), []. rewrite app_nil_r. repeat split; [discriminate|]. intros; exact Hr.
    + apply reify_ref_inv in Hr as (n' & [= <-] & [(vs & js & Hl & -> & Hm)|(ps & js & Hl & -> & Hm)]).
      * destruct (traverse_spec (deepClone_fuel n) (reify_fuel n) (reify_fuel n)) with
          (l := vs) (h := h) (cs := js) as (vs' & ext & Ht & Hvs'); [| |exact Hm|].
        { intros. apply reify_fuel_app. assumption. }
        { intros x h0 c Hx. destruct (IH x h0 c Hx) as (x' & e & Hc & _ & Hx').
          exists x', e. auto. }
        exists (VRef (length (h ++ ext))), (ext ++ [OArr vs']).
        simpl. rewrite Hl, Ht. unfold alloc. rewrite <- app_assoc.
        split; [reflexivity|]. split.
        { intros l0 _. eexists; split; [reflexivity|]. rewrite !length_app. simpl. lia. }
        intros h'' Hag. eapply reify_arr_intro.
        -- rewrite Hag; [|rewrite !length_app; simpl; lia].
           rewrite app_assoc. apply list_lookup_middle. reflexivity.
        -- apply Hvs'. rewrite app_assoc in Hag.
           eapply agrees_on_app_l; [reflexivity|].
           eapply agrees_on_narrow; [| |exact Hag]; [lia|].
           rewrite (length_app (h ++ ext)). lia.
      * destruct (traverse_spec
                    (fun kv h => match deepClone_fuel n (snd kv) h with
                                 | None => None
                                 | Some (v', h') => Some ((fst kv, v'), h')
                                 end)
                    (fun h (kv : string * val) => match reify_fuel n h (snd kv) with
                                 | None => None
                                 | Some j => Some (fst kv, j)
                                 end)
                    (fun h (kv : string * val) => match reify_fuel n h (snd kv) with
                                 | None => None
                                 | Some j => Some (fst kv, j)
                                 end)) with
          (l := ps) (h := h) (cs := js) as (ps' & ext & Ht & Hps'); [| |exact Hm|].
        { intros h0 e0 [k x] c. simpl.
          destruct (reify_fuel n h0 x) as [jx|] eqn:E; [|discriminate].
          rewrite (reify_fuel_app _ _ e0 _ _ E). auto. }
        { intros [k x] h0 c. simpl.
          destruct (reify_fuel n h0 x) as [jx|] eqn:E; [|discriminate].
          intros [= <-].
          destruct (IH x h0 jx E) as (x' & e & Hc & _ & Hx').
          exists (k, x'), e. rewrite Hc. split; [reflexivity|].
          intros h'' Hag. simpl. rewrite (Hx' h'' Hag). reflexivity. }
        exists (VRef (length (h ++ ext))), (ext ++ [OObj ps']).
        simpl. rewrite Hl, Ht. unfold alloc. rewrite <- app_assoc.
        split; [reflexivity|]. split.
        { intros l0 _. eexists; split; [reflexivity|]. rewrite !length_app. simpl. lia. }
        intros h'' Hag. eapply reify_obj_intro.
        -- rewrite Hag; [|rewrite !length_app; simpl; lia].
           rewrite app_assoc. apply list_lookup_middle. reflexivity.
        -- apply Hps'. rewrite app_assoc in Hag.
           eapply agrees_on_app_l; [reflexivity|].
           eapply agrees_on_narrow; [| |exact Hag]; [lia|].
           rewrite (length_app (h ++ ext)). lia.
Qed.

(** ** The template in the heap *)

Ltac reify_search :=
  repeat first
    [ apply reify_str_intro
    | apply reify_names
    | apply mapM_nil_intro
    | eapply mapM_cons_intro
    | eapply reify_prop_intro
    | eapply reify_obj_intro; [reflexivity|]
    | eapply reify_arr_intro; [reflexivity|] ].

(** Reading [taskConfigurationSchema] gives the template with the current
    contents of the two arrays in the three [enum] places. *)
Lemma reify_template types matchers rest n :
  reify_fuel (14 + n) (template_heap types matchers ++ rest)
    (taskConfigurationSchema consts) = Some (templateTree types matchers).
Proof.
  unfold templateTree, names_tree. simpl tree_of_lit.
  change (14 + n) with (S (S (S (S (S (S (S (S (S (S (S (S (S (S n)))))))))))))).
  reify_search.
Qed.

Lemma template_heap_length types matchers : length (template_heap types matchers) = 35.
Proof. reflexivity. Qed.

Lemma omap_as_string names : omap as_string (map VStr names) = names.
Proof. induction names as [|x r IH]; [reflexivity|]. cbn. f_equal. exact IH. Qed.

Lemma read_types_template types matchers rest :
  read_names (supportedTaskTypes consts) (template_heap types matchers ++ rest) = types.
Proof. simpl. apply omap_as_string. Qed.

Lemma read_matchers_template types matchers rest :
  read_names (problemMatcherNames consts) (template_heap types matchers ++ rest) = matchers.
Proof. simpl. apply omap_as_string. Qed.

Lemma replace_types_template types matchers rest names :
  push (supportedTaskTypes consts) names
    (truncate (supportedTaskTypes consts) (template_heap types matchers ++ rest))
  = template_heap names matchers ++ rest.
Proof. reflexivity. Qed.

Lemma replace_matchers_template types matchers rest names :
  push (problemMatcherNames consts) names
    (truncate (problemMatcherNames consts) (template_heap types matchers ++ rest))
  = template_heap types names ++ rest.
Proof. reflexivity. Qed.

Lemma heap_inv_names h types matchers :
  heap_inv h types matchers ->
  read_names (supportedTaskTypes consts) h = types /\
  read_names (problemMatcherNames consts) h = matchers.
Proof.
  intros [rest ->]. split; [apply read_types_template | apply read_matchers_template].
Qed.

Lemma heap_inv_length h types matchers : heap_inv h types matchers -> 35 <= length h.
Proof. intros [rest ->]. rewrite length_app, template_heap_length. lia. Qed.

Lemma heap_inv_app h ext types matchers :
  heap_inv h types matchers -> heap_inv (h ++ ext) types matchers.
Proof. intros [rest ->]. exists (rest ++ ext). rewrite app_assoc. reflexivity. Qed.

Lemma agrees_on_length a b h1 h2 :
  a < b -> b <= length h1 -> agrees_on a b h1 h2 -> b <= length h2.
Proof.
  intros Hab Hb Hag.
  destruct (lookup_lt_is_Some_2 h1 (b - 1)) as [o Ho]; [lia|].
  assert (H2 : h2 !! (b - 1) = Some o) by (rewrite Hag; [exact Ho | lia]).
  apply lookup_lt_Some in H2. lia.
Qed.

(** Assembly returns; nothing that existed is changed; and the schema reads
    as [schemaTree] of the arrays' contents at the time of the call, in every
    heap that still holds the objects allocated by the call. *)
Lemma getTaskSchema_spec inputs h types matchers :
  heap_inv h types matchers ->
  exists root ext,
    getTaskSchema inputs h = Some (root, h ++ ext) /\
    forall h'', agrees_on (length h) (length (h ++ ext)) (h ++ ext) h'' ->
                reify h'' root = Some (schemaTree inputs types matchers).
Proof.
  intros Hinv. pose proof (heap_inv_length _ _ _ Hinv) as Hlen.
  assert (Hread : reify_fuel (length h) h (taskConfigurationSchema consts)
                  = Some (templateTree types matchers)).
  { destruct Hinv as [rest ->].
    replace (length (template_heap types matchers ++ rest)) with (14 + (21 + length rest))
      by (rewrite length_app, template_heap_length; lia).
    apply reify_template. }
  destruct (deepClone_fuel_reify _ _ _ _ Hread) as (clone & ext & Hclone & Hfresh & Hsame).
  destruct (Hfresh 34 eq_refl) as (c & -> & Hc).
  pose proof (Hsame (h ++ ext) (agrees_on_refl _ _ _)) as Hhere.
  apply reify_ref_inv in Hhere as (n' & Hn' & [(vs & js & _ & Hj & _)|(ps & js & Hps & Hj & _)]);
    [discriminate Hj|].
  exists (VRef (length (h ++ ext) + 3)),
         (ext ++ [OObj ps;
                  OObj [("type", VStr "array"); ("items", VRef (length (h ++ ext)))];
                  OObj [("tasks", VRef (length (h ++ ext) + 1)); ("inputs", VExt inputs)];
                  OObj [("properties", VRef (length (h ++ ext) + 2))]]).
  split.
  - unfold getTaskSchema, deepClone. rewrite Hclone. simpl spread. rewrite Hps.
    unfold alloc. rewrite !length_app. simpl length.
    rewrite <- !app_assoc. simpl. rewrite <- !Nat.add_assoc. reflexivity.
  - intros h'' Hag.
    assert (Hlen'' : length (h ++ ext) + 4 <= length h'').
    { eapply agrees_on_length in Hag; [| |reflexivity];
        rewrite ?length_app in *; simpl in *; lia. }
    set (h1 := h ++ ext) in *.
    rewrite app_assoc in Hag. fold h1 in Hag.
    assert (Hat : forall k o, [OObj ps;
                  OObj [("type", VStr "array"); ("items", VRef (length h1))];
                  OObj [("tasks", VRef (length h1 + 1)); ("inputs", VExt inputs)];
                  OObj [("properties", VRef (length h1 + 2))]] !! k = Some o ->
                h'' !! (length h1 + k) = Some o).
    { intros k o Hk. rewrite Hag.
      - rewrite lookup_app_r by lia. replace (length h1 + k - length h1) with k by lia. exact Hk.
      - apply lookup_lt_Some in Hk. rewrite length_app. simpl in *. unfold h1 in *.
        rewrite length_app in *. lia. }
    assert (Hclone'' : reify_fuel (length h) h'' (VRef c) = Some (templateTree types matchers)).
    { apply Hsame. eapply agrees_on_app_l; [reflexivity|].
      eapply agrees_on_narrow; [| |exact Hag]; [lia|]. rewrite length_app. lia. }
    apply reify_ref_inv in Hclone'' as (n'' & Hn'' & [(vs & js' & _ & Hj' & _)|(ps' & js' & Hps' & Hj' & Hm')]);
      [discriminate Hj'|].
    assert (ps' = ps) as ->.
    { rewrite Hag in Hps' by (rewrite length_app; simpl; lia).
      rewrite lookup_app_l in Hps' by lia. congruence. }
    unfold reify, schemaTree.
    apply reify_fuel_mono with (n := S (S (S (S n'')))); [lia|].
    eapply reify_obj_intro; [apply (Hat 3); reflexivity|].
    apply mapM_cons_intro; [|reflexivity]. apply reify_prop_intro.
    eapply reify_obj_intro; [apply (Hat 2); reflexivity|].
    apply mapM_cons_intro; [|apply mapM_cons_intro; [|reflexivity]].
    + apply reify_prop_intro.
      eapply reify_obj_intro; [apply (Hat 1); reflexivity|].
      apply mapM_cons_intro; [apply reify_prop_intro, reify_str_intro|].
      apply mapM_cons_intro; [|reflexivity]. apply reify_prop_intro.
      rewrite Hj'. eapply reify_obj_intro.
      * replace (length h1) with (length h1 + 0) by lia. apply (Hat 0). reflexivity.
      * exact Hm'.
    + apply reify_prop_intro, reify_ext_intro.
Qed.

Lemma getStrigifiedTaskSchema_spec inputs h types matchers :
  heap_inv h types matchers ->
  exists ext,
    getStrigifiedTaskSchema inputs h
    = Some (render (schemaTree inputs types matchers), h ++ ext).
Proof.
  intros Hinv.
  destruct (getTaskSchema_spec inputs h types matchers Hinv) as (root & ext & Hg & Hr).
  exists ext. unfold getStrigifiedTaskSchema, JSON_stringify.
  rewrite Hg, (Hr (h ++ ext) (agrees_on_refl _ _ _)). reflexivity.
Qed.

(** ** The component *)

Section ComponentFacts.

Context {R J : Type} `{InMemoryResources R} `{JsonSchemaStore J}.

Local Open Scope js_scope.

Lemma world_inv_intro (w : World R J) types matchers :
  heap_inv (memory w) types matchers ->
  world_inv w /\ supportedTaskTypes_of w = types /\ problemMatcherNames_of w = matchers.
Proof.
  intros Hinv. destruct (heap_inv_names _ _ _ Hinv) as [Ht Hm].
  unfold world_inv, supportedTaskTypes_of, problemMatcherNames_of.
  rewrite Ht, Hm. auto.
Qed.

Lemma bind_ok {A B} (m : M R J A) (k : A -> M R J B) w a w' :
  m w = (Ok a, w') -> bind m k w = k a w'.
Proof. intros Hm. unfold bind. rewrite Hm. reflexivity. Qed.

(** *** Preservation of a property by every step *)

Section Preservation.

Variable Inv : World R J -> Prop.

Lemma bind_preserves {A B} (m : M R J A) (k : A -> M R J B) :
  (forall w, Inv w -> Inv (snd (m w))) ->
  (forall a w, Inv w -> Inv (snd (k a w))) ->
  forall w, Inv w -> Inv (snd (bind m k w)).
Proof.
  intros Hm Hk w Hw. unfold bind. specialize (Hm w Hw).
  destruct (m w) as [[a|e] w']; simpl in *; auto.
Qed.

Hypothesis Inv_update : forall w, Inv w -> Inv (snd (update w)).
Hypothesis Inv_replace : forall s names w, Inv w -> Inv (snd (replace_names s names w)).
Hypothesis Inv_server_call : forall w, Inv w -> Inv (with_event EvServerCall w).
Hypothesis Inv_subscribe : forall e h w, Inv w -> Inv (snd (subscribe e h w)).
Hypothesis Inv_pending : forall f w, Inv w -> Inv (with_pending f w).
Hypothesis Inv_matchers : forall names w, Inv w -> Inv (with_problemMatcherRegistry names w).
Hypothesis Inv_definitions : forall types w, Inv w -> Inv (with_taskDefinitionRegistry types w).

Lemma updateProblemMatcherNames_preserves w :
  Inv w -> Inv (snd (updateProblemMatcherNames w)).
Proof.
  apply bind_preserves; [auto|]. intros names.
  apply bind_preserves; auto.
Qed.

Lemma getRegisteredTaskTypes_call_preserves c w :
  Inv w -> Inv (snd (getRegisteredTaskTypes_call c w)).
Proof. intros Hw. simpl. auto. Qed.

Lemma getRegisteredTaskTypes_resume_preserves server w :
  Inv w -> Inv (snd (getRegisteredTaskTypes_resume server w)).
Proof. destruct server; simpl; auto. Qed.

Lemma updateSupportedTaskTypes_resume_preserves r w :
  Inv w -> Inv (snd (updateSupportedTaskTypes_resume r w)).
Proof.
  destruct r as [allTypes|e]; [|simpl; auto].
  apply bind_preserves; auto.
Qed.

Lemma init_preserves w : Inv w -> Inv (snd (init w)).
Proof.
  unfold init.
  apply bind_preserves; [apply updateProblemMatcherNames_preserves|]. intros _.
  apply bind_preserves; [apply getRegisteredTaskTypes_call_preserves|]. intros _.
  apply bind_preserves; [apply Inv_subscribe|]. intros _.
  apply bind_preserves; [apply Inv_subscribe|]. intros _.
  apply Inv_subscribe.
Qed.

Lemma run_handler_preserves h w : Inv w -> Inv (snd (run_handler h w)).
Proof.
  destruct h; [apply updateProblemMatcherNames_preserves
              | apply getRegisteredTaskTypes_call_preserves].
Qed.

Lemma fire_preserves e w : Inv w -> Inv (fire e w).
Proof.
  unfold fire. generalize (subscriptions w) as subs.
  intros subs. revert w. induction subs as [|[e' h] subs IH]; intros w Hw; [exact Hw|].
  simpl. apply IH. destruct (Emitter_eqb e' e); [apply run_handler_preserves|]; exact Hw.
Qed.

Lemma step_preserves i w : Inv w -> Inv (step i w).
Proof.
  intros Hw. destruct i as [|names|types|types| |i server|i]; simpl.
  - apply init_preserves, Hw.
  - apply fire_preserves, Inv_matchers, Hw.
  - apply fire_preserves, Inv_definitions, Hw.
  - apply fire_preserves, Inv_definitions, Hw.
  - auto.
  - destruct (pending w !! i) as [[c|r]|]; try exact Hw.
    pose proof (getRegisteredTaskTypes_resume_preserves server _ (Inv_pending (delete i) w Hw))
      as Hres.
    destruct (getRegisteredTaskTypes_resume server (with_pending (delete i) w)) as [r w'].
    destruct c; simpl in *; auto.
  - destruct (pending w !! i) as [[c|r]|]; try exact Hw.
    apply updateSupportedTaskTypes_resume_preserves, Inv_pending, Hw.
Qed.

Lemma run_preserves inputs w : Inv w -> Inv (run inputs w).
Proof.
  revert w. induction inputs as [|i inputs IH]; intros w Hw; [exact Hw|].
  simpl. apply IH, step_preserves, Hw.
Qed.

End Preservation.

(** *** The publisher *)

Lemma getStrigifiedTaskSchema_m_spec (w : World R J) :
  world_inv w ->
  exists ext, getStrigifiedTaskSchema_m w
              = (Ok (schema_content w), with_memory (fun _ => memory w ++ ext) w).
Proof.
  intros Hinv.
  destruct (getStrigifiedTaskSchema_spec (inputsSchema_inputs w) _ _ _ Hinv) as (ext & Hs).
  exists ext. unfold getStrigifiedTaskSchema_m. rewrite Hs. reflexivity.
Qed.

Lemma update_unfold (w : World R J) :
  world_inv w ->
  exists ext, update w = publish (schema_content w) (with_memory (fun _ => memory w ++ ext) w).
Proof.
  intros Hinv. destruct (getStrigifiedTaskSchema_m_spec w Hinv) as (ext & Hs).
  exists ext. unfold update, bind. rewrite Hs. reflexivity.
Qed.

(** The four ways a publication can go. *)
Lemma publish_cases c (w : World R J) :
  publish c w =
  match resources_update taskSchemaUri c (inmemoryResources w) with
  | Some r =>
      (Ok tt, with_event (EvUpdate taskSchemaUri c true) (with_inmemoryResources r w))
  | None =>
      let w1 := with_event (EvUpdate taskSchemaUri c false) w in
      match resources_add taskSchemaUri c (inmemoryResources w) with
      | None => (Throw ResourceError, with_event (EvAdd taskSchemaUri c false) w1)
      | Some r =>
          let w2 := with_event (EvAdd taskSchemaUri c true) (with_inmemoryResources r w1) in
          match registerSchema ["tasks.json"] taskSchemaUri (jsonSchemaStore w) with
          | None =>
              (Throw SchemaStoreError,
               with_event (EvRegisterSchema ["tasks.json"] taskSchemaUri false) w2)
          | Some j =>
              (Ok tt, with_event (EvRegisterSchema ["tasks.json"] taskSchemaUri true)
                        (with_jsonSchemaStore j w2))
          end
      end
  end.
Proof.
  unfold publish, try_catch, bind, inmemoryResources_update, inmemoryResources_add,
    jsonSchemaStore_registerSchema.
  destruct (resources_update _ _ _); [reflexivity|]. simpl.
  destruct (resources_add _ _ _); [|reflexivity]. simpl.
  destruct (registerSchema _ _ _); reflexivity.
Qed.

(** A publication touches the store, the index and the trace only. *)
Lemma publish_frame c (w : World R J) :
  memory (snd (publish c w)) = memory w /\
  inputsSchema_inputs (snd (publish c w)) = inputsSchema_inputs w /\
  problemMatcherRegistry (snd (publish c w)) = problemMatcherRegistry w /\
  taskDefinitionRegistry (snd (publish c w)) = taskDefinitionRegistry w /\
  subscriptions (snd (publish c w)) = subscriptions w /\
  pending (snd (publish c w)) = pending w.
Proof.
  rewrite publish_cases.
  destruct (resources_update _ _ _); [simpl; auto 10|].
  destruct (resources_add _ _ _); [|simpl; auto 10].
  destruct (registerSchema _ _ _); simpl; auto 10.
Qed.

Lemma update_frame (w : World R J) :
  world_inv w ->
  (exists ext, memory (snd (update w)) = memory w ++ ext) /\
  inputsSchema_inputs (snd (update w)) = inputsSchema_inputs w /\
  problemMatcherRegistry (snd (update w)) = problemMatcherRegistry w /\
  taskDefinitionRegistry (snd (update w)) = taskDefinitionRegistry w /\
  subscriptions (snd (update w)) = subscriptions w /\
  pending (snd (update w)) = pending w.
Proof.
  intros Hinv. destruct (update_unfold w Hinv) as (ext & ->).
  destruct (publish_frame (schema_content w) (with_memory (fun _ => memory w ++ ext) w))
    as (-> & -> & -> & -> & -> & ->).
  simpl. eauto 10.
Qed.

Lemma update_names (w : World R J) :
  world_inv w ->
  world_inv (snd (update w)) /\
  supportedTaskTypes_of (snd (update w)) = supportedTaskTypes_of w /\
  problemMatcherNames_of (snd (update w)) = problemMatcherNames_of w.
Proof.
  intros Hinv. destruct (update_frame w Hinv) as ((ext & Hmem) & _).
  apply world_inv_intro. rewrite Hmem. apply heap_inv_app. exact Hinv.
Qed.

Lemma replace_names_spec s names (w : World R J) :
  world_inv w ->
  let w' := snd (replace_names s names w) in
  fst (replace_names s names w) = Ok tt /\
  world_inv w' /\
  supportedTaskTypes_of w'
    = match s with TaskTypes => names | MatcherNames => supportedTaskTypes_of w end /\
  problemMatcherNames_of w'
    = match s with TaskTypes => problemMatcherNames_of w | MatcherNames => names end /\
  trace w' = trace w ++ [EvReplaced s names] /\
  inputsSchema_inputs w' = inputsSchema_inputs w /\
  problemMatcherRegistry w' = problemMatcherRegistry w /\
  taskDefinitionRegistry w' = taskDefinitionRegistry w /\
  inmemoryResources w' = inmemoryResources w /\
  jsonSchemaStore w' = jsonSchemaStore w /\
  subscriptions w' = subscriptions w /\
  pending w' = pending w.
Proof.
  intros Hinv w'. split; [reflexivity|].
  assert (Hmem : heap_inv (memory w')
                   (match s with TaskTypes => names | MatcherNames => supportedTaskTypes_of w end)
                   (match s with TaskTypes => problemMatcherNames_of w | MatcherNames => names end)).
  { destruct Hinv as [rest Hrest]. exists rest. subst w'. simpl. rewrite Hrest.
    destruct s; simpl name_array;
      [apply replace_types_template | apply replace_matchers_template]. }
  destruct (world_inv_intro w' _ _ Hmem) as (? & ? & ?).
  repeat split; assumption || reflexivity.
Qed.

Lemma world_inv_run inputs (w : World R J) : world_inv w -> world_inv (run inputs w).
Proof.
  apply run_preserves; clear w inputs.
  - intros w Hw. apply update_names, Hw.
  - intros s names w Hw. apply (replace_names_spec s names w Hw).
  - intros w Hw. exact Hw.
  - intros e h w Hw. exact Hw.
  - intros f w Hw. exact Hw.
  - intros names w Hw. exact Hw.
  - intros types w Hw. exact Hw.
Qed.

Lemma world_inv_initial inputs matchers types (r : R) (j : J) :
  world_inv (initial inputs matchers types r j).
Proof. apply (world_inv_intro _ defaultTaskTypes []). exists []. reflexivity. Qed.

(** Every world the component can be in has its heap in order. *)
Lemma world_inv_reachable events inputs matchers types (r : R) (j : J) :
  world_inv (run events (initial inputs matchers types r j)).
Proof. apply world_inv_run, world_inv_initial. Qed.

End ComponentFacts.

(** ** Properties of the component *)

Lemma startsWith_leading_sigils name :
  startsWith name "$" = match leading_sigils name with 0 => false | S _ => true end.
Proof.
  destruct name as [|c r]; [reflexivity|]. unfold startsWith.
  cbn [leading_sigils String.prefix].
  destruct (Ascii.eqb_spec c "$") as [->|Hne].
  - destruct (ascii_dec "$" "$") as [_|Hn]; [|contradiction Hn; reflexivity].
    destruct r; reflexivity.
  - destruct (ascii_dec "$" c) as [He|_]; [|reflexivity].
    contradiction Hne. symmetry. exact He.
Qed.

(** C6, as the code has it: sigil normalization leaves a name that starts
    with "$" unchanged and prepends "$" otherwise; the result always starts
    with the sigil, a name that carries the sigil never gets a second one
    ("$bar" stays "$bar"), and normalizing twice is normalizing once.  The
    entry carries as many sigils in front as the raw name did, and one when
    the raw name had none: exactly one unless the raw name itself began with
    two or more. *)
Theorem C6_sigil_normalization (name : string) :
  normalizeMatcherName name = (if startsWith name "$" then name else "$" +:+ name) /\
  startsWith (normalizeMatcherName name) "$" = true /\
  normalizeMatcherName ("$" +:+ name) = "$" +:+ name /\
  normalizeMatcherName (normalizeMatcherName name) = normalizeMatcherName name /\
  normalizeMatcherName "$bar" = "$bar" /\
  leading_sigils (normalizeMatcherName name) = Nat.max 1 (leading_sigils name) /\
  (leading_sigils (normalizeMatcherName name) = 1 <-> leading_sigils name <= 1).
Proof.
  split; [reflexivity|]. split; [apply normalizeMatcherName_startsWith|].
  split; [|split; [apply normalizeMatcherName_idem | split; [reflexivity|]]].
  { unfold normalizeMatcherName. rewrite startsWith_sigil_cons. reflexivity. }
  assert (Hmax : leading_sigils (normalizeMatcherName name) = Nat.max 1 (leading_sigils name)).
  { unfold normalizeMatcherName. rewrite startsWith_leading_sigils.
    destruct (leading_sigils name) as [|n] eqn:E.
    - change (S (leading_sigils name) = 1). rewrite E. reflexivity.
    - rewrite E. lia. }
  split; [exact Hmax|]. rewrite Hmax. lia.
Qed.

(** C6 as stated fails: a raw name that begins with two sigils is left as it
    is, so its entry carries the prefix twice. *)
Lemma C6_counterexample :
  normalizeMatcherName "$$bar" = "$$bar" /\
  leading_sigils (normalizeMatcherName "$$bar") = 2 /\
  leading_sigils (normalizeMatcherName "$$bar") <> 1.
Proof. repeat split. discriminate. Qed.

Section Recomputation.

Context {R J : Type} `{InMemoryResources R} `{JsonSchemaStore J}.

Lemma publication_events_snoc t e :
  publication_events (t ++ [e])
  = publication_events t ++ (if is_publication_event e then [e] else []).
Proof.
  unfold publication_events. rewrite filter_app. f_equal.
  destruct e; reflexivity.
Qed.

(** C4: when the remote retrieval fails, the whole attempt (the call, the
    rejection, the resumption of the caller) leaves the heap, hence the Task
    Type Name Set, the store and the index as they were, makes no
    publication, and ends in the caller's promise being rejected with the
    server's error. *)
Theorem C4_remote_failure_leaves_types (w : World R J) :
  let w1 := snd (updateSupportedTaskTypes_call w) in
  updateSupportedTaskTypes_settled None w1 = (Throw ServerError, w1) /\
  memory w1 = memory w /\
  supportedTaskTypes_of w1 = supportedTaskTypes_of w /\
  inmemoryResources w1 = inmemoryResources w /\
  jsonSchemaStore w1 = jsonSchemaStore w /\
  publication_events (trace w1) = publication_events (trace w) /\
  run [ServerSettles (length (pending w)) None; Resume (length (pending w))] w1
  = with_event EvServerCall w.
Proof.
  simpl. repeat split.
  - rewrite publication_events_snoc. simpl. apply app_nil_r.
  - unfold with_pending at 1. simpl.
    rewrite list_lookup_middle by reflexivity. simpl.
    rewrite (delete_middle (pending w) []), app_nil_r.
    rewrite list_lookup_middle by reflexivity. simpl.
    unfold with_pending, with_event. simpl.
    repeat (rewrite (delete_middle (pending w) []) || rewrite app_nil_r).
    destruct w; reflexivity.
Qed.

(** C10: the public query changes neither name array and publishes nothing:
    its call only reaches the server and suspends, and its continuation
    returns the merged list and leaves the world as it is. *)
Theorem C10_query_is_read_only (w : World R J) (server : list string) :
  let w1 := snd (getRegisteredTaskTypes_call byClient w) in
  getRegisteredTaskTypes_resume (Some server) w1
  = (Ok (mergeTaskTypes server (taskDefinitionRegistry w)), w1) /\
  supportedTaskTypes_of w1 = supportedTaskTypes_of w /\
  problemMatcherNames_of w1 = problemMatcherNames_of w /\
  memory w1 = memory w /\
  inmemoryResources w1 = inmemoryResources w /\
  jsonSchemaStore w1 = jsonSchemaStore w /\
  trace w1 = trace w ++ [EvServerCall] /\
  publication_events (trace w1) = publication_events (trace w) /\
  run [ClientQuery; ServerSettles (length (pending w)) (Some server)] w
  = with_event EvServerCall w.
Proof.
  simpl. repeat split.
  - rewrite publication_events_snoc. simpl. apply app_nil_r.
  - unfold with_pending at 1. simpl.
    rewrite list_lookup_middle by reflexivity. simpl.
    unfold with_pending, with_event. simpl.
    rewrite (delete_middle (pending w) []), app_nil_r.
    destruct w; reflexivity.
Qed.

Lemma updateProblemMatcherNames_unfold (w : World R J) :
  updateProblemMatcherNames w
  = update (snd (replace_names MatcherNames
                   (map normalizeMatcherName (problemMatcherRegistry w)) w)).
Proof. reflexivity. Qed.

Lemma updateSupportedTaskTypes_resume_unfold allTypes (w : World R J) :
  updateSupportedTaskTypes_resume (Ok allTypes) w
  = update (snd (replace_names TaskTypes allTypes w)).
Proof. reflexivity. Qed.

Lemma update_throws (w : World R J) :
  world_inv w ->
  (forall c, resources_update taskSchemaUri c (inmemoryResources w) = None) ->
  (forall c, resources_add taskSchemaUri c (inmemoryResources w) = None) ->
  fst (update w) = Throw ResourceError.
Proof.
  intros Hinv Hu Ha. destruct (update_unfold w Hinv) as (ext & ->).
  rewrite publish_cases. simpl. rewrite Hu, Ha. reflexivity.
Qed.

(** C9: a recomputation replaces its name array before it publishes, so
    when both the resource update and the fallback registration throw, the
    recomputation throws and the array keeps the new contents. *)
Theorem C9_names_kept_when_publication_fails (w : World R J) :
  world_inv w ->
  (forall c, resources_update taskSchemaUri c (inmemoryResources w) = None) ->
  (forall c, resources_add taskSchemaUri c (inmemoryResources w) = None) ->
  (fst (updateProblemMatcherNames w) = Throw ResourceError /\
   problemMatcherNames_of (snd (updateProblemMatcherNames w))
   = map normalizeMatcherName (problemMatcherRegistry w)) /\
  (forall allTypes,
     fst (updateSupportedTaskTypes_resume (Ok allTypes) w) = Throw ResourceError /\
     supportedTaskTypes_of (snd (updateSupportedTaskTypes_resume (Ok allTypes) w))
     = allTypes).
Proof.
  intros Hinv Hu Ha. split; [|intros allTypes].
  - rewrite updateProblemMatcherNames_unfold.
    destruct (replace_names_spec MatcherNames
                (map normalizeMatcherName (problemMatcherRegistry w)) w Hinv)
      as (_ & Hinv' & _ & Hm & _ & _ & _ & _ & Hr & _).
    split.
    + apply update_throws; [exact Hinv'| |]; intros c; rewrite Hr; auto.
    + destruct (update_names _ Hinv') as (_ & _ & ->). exact Hm.
  - rewrite updateSupportedTaskTypes_resume_unfold.
    destruct (replace_names_spec TaskTypes allTypes w Hinv)
      as (_ & Hinv' & Ht & _ & _ & _ & _ & _ & Hr & _).
    split.
    + apply update_throws; [exact Hinv'| |]; intros c; rewrite Hr; auto.
    + destruct (update_names _ Hinv') as (_ & -> & _). exact Ht.
Qed.

(** What [update()] adds to the trace. *)
Lemma update_trace (w : World R J) :
  world_inv w ->
  exists ok rest,
    trace (snd (update w)) = trace w ++ EvUpdate taskSchemaUri (schema_content w) ok :: rest /\
    Forall (fun e => is_update_attempt e = false) rest /\
    (ok = true -> rest = []).
Proof.
  intros Hinv. destruct (update_unfold w Hinv) as (ext & ->).
  rewrite publish_cases. simpl.
  destruct (resources_update _ _ _).
  { exists true, []. simpl. auto. }
  destruct (resources_add _ _ _); simpl.
  2:{ eexists false, [_]. simpl. rewrite <- app_assoc. split; [reflexivity|].
      split; [|discriminate]. repeat constructor. }
  destruct (registerSchema _ _ _); simpl;
    eexists false, [_; _]; rewrite <- !app_assoc; (split; [reflexivity|]);
    (split; [|discriminate]); repeat constructor.
Qed.

Lemma last_content_update (w : World R J) :
  world_inv w -> last_content (trace (snd (update w))) = Some (schema_content w).
Proof.
  intros Hinv. destruct (update_trace w Hinv) as (ok & rest & -> & Hrest & _).
  unfold last_content. rewrite fold_left_app. simpl.
  induction Hrest as [|e rest He _ IH]; [reflexivity|].
  simpl. destruct e; try discriminate; exact IH.
Qed.

(** C7: the serialized schema is a function of the two name arrays (and of
    the inputs definition of the variable resolver): two worlds that agree
    on them, whatever else differs (heap, store, trace), serialize to the
    same string and hand the same content to the store. *)
Theorem C7_serialization_deterministic (w1 w2 : World R J) :
  world_inv w1 -> world_inv w2 ->
  inputsSchema_inputs w1 = inputsSchema_inputs w2 ->
  supportedTaskTypes_of w1 = supportedTaskTypes_of w2 ->
  problemMatcherNames_of w1 = problemMatcherNames_of w2 ->
  exists s,
    fst (getStrigifiedTaskSchema_m w1) = Ok s /\
    fst (getStrigifiedTaskSchema_m w2) = Ok s /\
    last_content (trace (snd (update w1))) = Some s /\
    last_content (trace (snd (update w2))) = Some s.
Proof.
  intros Hinv1 Hinv2 Hi Ht Hm. exists (schema_content w1).
  assert (Hc : schema_content w2 = schema_content w1).
  { unfold schema_content. rewrite Hi, Ht, Hm. reflexivity. }
  destruct (getStrigifiedTaskSchema_m_spec w1 Hinv1) as (e1 & ->).
  destruct (getStrigifiedTaskSchema_m_spec w2 Hinv2) as (e2 & ->).
  rewrite !last_content_update by assumption. rewrite Hc. auto.
Qed.

End Recomputation.

(** *** Later operations on the heap *)

Lemma truncate_template s types matchers rest :
  truncate (name_array s) (template_heap types matchers ++ rest)
  = template_heap (match s with TaskTypes => [] | MatcherNames => types end)
                  (match s with TaskTypes => matchers | MatcherNames => [] end) ++ rest.
Proof. destruct s; reflexivity. Qed.

Lemma push_template s names types matchers rest :
  push (name_array s) names (template_heap types matchers ++ rest)
  = template_heap (match s with TaskTypes => types ++ names | MatcherNames => types end)
                  (match s with TaskTypes => matchers | MatcherNames => matchers ++ names end)
    ++ rest.
Proof.
  destruct s; unfold template_heap; simpl; rewrite map_app; reflexivity.
Qed.

Lemma template_heap_above types matchers types' matchers' rest l :
  35 <= l ->
  (template_heap types' matchers' ++ rest) !! l = (template_heap types matchers ++ rest) !! l.
Proof.
  intros Hl. rewrite !lookup_app_r by (rewrite template_heap_length; exact Hl).
  rewrite !template_heap_length. reflexivity.
Qed.

(** An operation keeps the module's objects in place and leaves every other
    object that exists as it is. *)
Lemma apply_op_spec o h types matchers :
  heap_inv h types matchers ->
  (exists types' matchers', heap_inv (apply_op o h) types' matchers') /\
  forall l, 35 <= l < length h -> apply_op o h !! l = h !! l.
Proof.
  intros Hinv. destruct o as [s|s names|inputs]; simpl.
  - destruct Hinv as [rest ->]. rewrite truncate_template. split.
    + eexists _, _, rest. reflexivity.
    + intros l [Hl _]. apply template_heap_above, Hl.
  - destruct Hinv as [rest ->]. rewrite push_template. split.
    + eexists _, _, rest. reflexivity.
    + intros l [Hl _]. apply template_heap_above, Hl.
  - destruct (getTaskSchema_spec inputs h types matchers Hinv) as (root & ext & -> & _).
    split.
    + exists types, matchers. apply heap_inv_app, Hinv.
    + intros l [_ Hl]. apply lookup_app_l, Hl.
Qed.

Lemma apply_ops_spec ops : forall h types matchers,
  heap_inv h types matchers ->
  forall l, 35 <= l < length h -> apply_ops ops h !! l = h !! l.
Proof.
  induction ops as [|o ops IH]; intros h types matchers Hinv l Hl; [reflexivity|].
  simpl. destruct (apply_op_spec o h types matchers Hinv) as ((types' & matchers' & Hinv') & Hsame).
  rewrite (IH _ _ _ Hinv'); [apply Hsame, Hl|].
  split; [apply Hl|]. apply lookup_lt_is_Some. rewrite Hsame by exact Hl.
  apply lookup_lt_is_Some. apply Hl.
Qed.

Lemma schemaTree_enums inputs types matchers :
  type_enum (schemaTree inputs types matchers) = Some (names_tree types) /\
  matcher_enum (schemaTree inputs types matchers) = Some (names_tree matchers) /\
  matcher_items_enum (schemaTree inputs types matchers) = Some (names_tree matchers).
Proof. repeat split. Qed.

(** C8: assembly returns a schema built from a deep copy: the objects that
    existed, the template among them, are untouched ([h ++ ext]); the schema
    reads as the template with the contents both arrays had at the call in
    its three enum places; and it reads the same after any later clearing,
    pushing or assembling. *)
Theorem C8_assembled_schema_is_a_snapshot (inputs : JSON) (h : heap) :
  heap_ok h ->
  let types := read_names (supportedTaskTypes consts) h in
  let matchers := read_names (problemMatcherNames consts) h in
  exists schema ext,
    getTaskSchema inputs h = Some (schema, h ++ ext) /\
    reify (h ++ ext) schema = Some (schemaTree inputs types matchers) /\
    type_enum (schemaTree inputs types matchers) = Some (names_tree types) /\
    matcher_enum (schemaTree inputs types matchers) = Some (names_tree matchers) /\
    matcher_items_enum (schemaTree inputs types matchers) = Some (names_tree matchers) /\
    forall ops,
      reify (apply_ops ops (h ++ ext)) schema = Some (schemaTree inputs types matchers).
Proof.
  intros Hinv types matchers.
  destruct (getTaskSchema_spec inputs h types matchers Hinv) as (root & ext & Hg & Hr).
  exists root, ext. split; [exact Hg|].
  split; [apply Hr, agrees_on_refl|].
  destruct (schemaTree_enums inputs types matchers) as (-> & -> & ->).
  do 3 (split; [reflexivity|]).
  intros ops. apply Hr. intros l Hl.
  apply (apply_ops_spec ops (h ++ ext) types matchers).
  - apply heap_inv_app, Hinv.
  - pose proof (heap_inv_length _ _ _ Hinv). lia.
Qed.

Lemma C8_witness :
  heap_ok moduleHeap /\
  exists schema ext,
    getTaskSchema sample_inputs moduleHeap = Some (schema, moduleHeap ++ ext) /\
    reify (apply_ops [OpTruncate TaskTypes; OpPush TaskTypes ["custom"];
                      OpAssemble sample_inputs] (moduleHeap ++ ext)) schema
    = Some (schemaTree sample_inputs ["shell"; "process"] []).
Proof.
  assert (Hok : heap_ok moduleHeap) by (exists []; vm_compute; reflexivity).
  split; [exact Hok|].
  destruct (C8_assembled_schema_is_a_snapshot sample_inputs moduleHeap Hok)
    as (schema & ext & Hg & _ & _ & _ & _ & Hops).
  exists schema, ext. split; [exact Hg|]. apply Hops.
Defined.

Section Publication.

Context {R J : Type} `{InMemoryResources R} `{JsonSchemaStore J}.
Context {lawful : Lawful R J}.

(** With the store of the specification a publication succeeds, on the one
    path or the other. *)
Lemma update_lawful (w : World R J) :
  world_inv w ->
  exists ext r' j',
    update w
    = (Ok tt, mkWorld (memory w ++ ext) (inputsSchema_inputs w) (problemMatcherRegistry w)
                (taskDefinitionRegistry w) r' j' (subscriptions w) (pending w)
                (trace w ++ (if resources_has taskSchemaUri (inmemoryResources w)
                             then update_path (schema_content w)
                             else register_path (schema_content w)))) /\
    resources_has taskSchemaUri r' = true.
Proof.
  intros Hinv. destruct (update_unfold w Hinv) as (ext & ->).
  rewrite publish_cases. simpl. exists ext.
  destruct (resources_has taskSchemaUri (inmemoryResources w)) eqn:Ehas.
  - destruct (update_present taskSchemaUri (schema_content w) _ Ehas) as (r' & -> & Hr').
    exists r', (jsonSchemaStore w). split; [reflexivity | exact Hr'].
  - rewrite (update_absent taskSchemaUri (schema_content w) _ Ehas).
    destruct (add_absent taskSchemaUri (schema_content w) _ Ehas) as (r' & -> & Hr').
    destruct (registerSchema_total ["tasks.json"] taskSchemaUri (jsonSchemaStore w))
      as (j' & ->).
    exists r', j'. split; [|exact Hr'].
    unfold with_event, with_jsonSchemaStore, with_inmemoryResources, register_path. simpl.
    rewrite <- !app_assoc. reflexivity.
Qed.


Lemma publications_ok_update (w : World R J) :
  publications_ok w -> publications_ok (snd (update w)).
Proof.
  intros [Hinv Hrec]. split; [apply update_names, Hinv|].
  destruct (update_lawful w Hinv) as (ext & r' & j' & -> & Hr'). simpl. right.
  split; [exact Hr'|]. unfold publication_events in *. rewrite filter_app.
  destruct Hrec as [[-> ->]|[-> (c & rest & -> & Hrest)]].
  - exists (schema_content w), []. split; [reflexivity | constructor].
  - exists c, (rest ++ update_path (schema_content w)). rewrite <- app_assoc.
    split; [reflexivity|]. apply Forall_app. split; [exact Hrest|].
    repeat constructor. eexists. reflexivity.
Qed.

Lemma publications_ok_event e (w : World R J) :
  is_publication_event e = false -> publications_ok w -> publications_ok (with_event e w).
Proof.
  intros He [Hinv Hrec]. split; [exact Hinv|]. simpl.
  rewrite publication_events_snoc, He, app_nil_r. exact Hrec.
Qed.

Lemma publications_ok_replace s names (w : World R J) :
  publications_ok w -> publications_ok (snd (replace_names s names w)).
Proof.
  intros [Hinv Hrec].
  destruct (replace_names_spec s names w Hinv)
    as (_ & Hinv' & _ & _ & Ht & _ & _ & _ & Hr & _).
  split; [exact Hinv'|]. rewrite Hr, Ht, publication_events_snoc, app_nil_r. exact Hrec.
Qed.

Lemma publications_ok_run inputs (w : World R J) :
  publications_ok w -> publications_ok (run inputs w).
Proof.
  apply run_preserves; clear w inputs.
  - apply publications_ok_update.
  - apply publications_ok_replace.
  - intros w. apply publications_ok_event. reflexivity.
  - intros e h w Hw. apply (publications_ok_event (EvSubscribe e h)); [reflexivity|].
    exact Hw.
  - intros f w Hw. exact Hw.
  - intros names w Hw. exact Hw.
  - intros types w Hw. exact Hw.
Qed.

(** C5: a publication first calls [update] on the store, and calls [add]
    and [registerSchema] only when no resource exists yet; so in every run
    that starts without a resource, the publications are one
    register-and-associate followed by updates only. *)
Theorem C5_register_once_then_update
    (inputs : JSON) (matchers types : list string) (r : R) (j : J) :
  resources_has taskSchemaUri r = false ->
  (forall w : World R J, world_inv w ->
     trace (snd (update w))
     = trace w ++ (if resources_has taskSchemaUri (inmemoryResources w)
                   then update_path (schema_content w)
                   else register_path (schema_content w))) /\
  forall events,
    let t := publication_events (trace (run events (initial inputs matchers types r j))) in
    t = [] \/
    exists c rest, t = register_path c ++ rest /\ Forall is_update_path_event rest.
Proof.
  intros Hr. split.
  - intros w Hinv. destruct (update_lawful w Hinv) as (ext & r' & j' & -> & _). reflexivity.
  - intros events t.
    assert (H0' : publications_ok (initial inputs matchers types r j)).
    { split; [apply world_inv_initial|]. left. split; [exact Hr | reflexivity]. }
    destruct (publications_ok_run events _ H0') as [_ [[_ Ht]|[_ Ht]]]; [left|right]; exact Ht.
Qed.

End Publication.

(** The store of the specification is lawful. *)
Lemma map_store_lawful : Lawful (gmap string string) (list (list string * string)).
Proof.
  split.
  - intros uri c r. simpl. destruct (r !! uri) eqn:E; [|discriminate]. intros _.
    eexists. split; [reflexivity|]. rewrite lookup_insert_eq. reflexivity.
  - intros uri c r. simpl. destruct (r !! uri); [discriminate | reflexivity].
  - intros uri c r _. simpl. eexists. split; [reflexivity|].
    rewrite lookup_insert_eq. reflexivity.
  - intros fileMatch url j. simpl. eauto.
Qed.

Lemma C5_witness :
  resources_has taskSchemaUri (∅ : gmap string string) = false /\
  let t := publication_events
             (trace (run [PostConstruct; MatchersChanged ["gcc"];
                          ServerSettles 0 (Some ["shell"; "process"]); Resume 0]
                       (world0 [] []))) in
  t = [] \/ exists c rest, t = register_path c ++ rest /\ Forall is_update_path_event rest.
Proof.
  split; [reflexivity|].
  exact (proj2 (C5_register_once_then_update (lawful := map_store_lawful)
                  sample_inputs [] [] ∅ [] eq_refl)
               [PostConstruct; MatchersChanged ["gcc"];
                ServerSettles 0 (Some ["shell"; "process"]); Resume 0]).
Defined.

Section Startup.

Context {R J : Type} `{InMemoryResources R} `{JsonSchemaStore J}.
Context {lawful : Lawful R J}.

Lemma publication_count_app t1 t2 :
  publication_count (t1 ++ t2) = publication_count t1 + publication_count t2.
Proof. unfold publication_count. rewrite filter_app, length_app. reflexivity. Qed.

(** The world [init] leaves behind. *)
Lemma init_lawful inputs matchers types (r : R) (j : J) :
  exists ext r' j',
    step PostConstruct (initial inputs matchers types r j)
    = mkWorld (template_heap defaultTaskTypes (map normalizeMatcherName matchers) ++ ext)
        inputs matchers types r' j' init_subscriptions
        [AfterServer byUpdateSupportedTaskTypes]
        ([EvReplaced MatcherNames (map normalizeMatcherName matchers)]
         ++ (if resources_has taskSchemaUri r
             then update_path (render (schemaTree inputs defaultTaskTypes
                                         (map normalizeMatcherName matchers)))
             else register_path (render (schemaTree inputs defaultTaskTypes
                                           (map normalizeMatcherName matchers))))
         ++ [EvServerCall;
             EvSubscribe onDidChangeProblemMatcher callUpdateProblemMatcherNames;
             EvSubscribe onDidRegisterTaskDefinition callUpdateSupportedTaskTypes;
             EvSubscribe onDidUnregisterTaskDefinition callUpdateSupportedTaskTypes]) /\
    resources_has taskSchemaUri r' = true.
Proof.
  set (w0 := initial inputs matchers types r j).
  set (wA := snd (replace_names MatcherNames (map normalizeMatcherName matchers) w0)).
  assert (HinvA : world_inv wA /\ supportedTaskTypes_of wA = defaultTaskTypes /\
                  problemMatcherNames_of wA = map normalizeMatcherName matchers).
  { apply world_inv_intro. exists []. reflexivity. }
  destruct HinvA as (HinvA & HtA & HmA).
  destruct (update_lawful wA HinvA) as (ext & r' & j' & Hupd & Hr').
  unfold schema_content in Hupd. rewrite HtA, HmA in Hupd.
  change (inmemoryResources wA) with r in Hupd.
  exists ext, r', j'. split; [|exact Hr'].
  unfold step, init.
  rewrite (bind_ok updateProblemMatcherNames _ w0 _ _ Hupd).
  destruct (resources_has taskSchemaUri r); reflexivity.
Qed.

Lemma step_notification (w : World R J) :
  subscriptions w = init_subscriptions ->
  (forall names,
     step (MatchersChanged names) w
     = snd (updateProblemMatcherNames (with_problemMatcherRegistry names w))) /\
  (forall types',
     step (DefinitionRegistered types') w
     = snd (updateSupportedTaskTypes_call (with_taskDefinitionRegistry types' w))) /\
  (forall types',
     step (DefinitionUnregistered types') w
     = snd (updateSupportedTaskTypes_call (with_taskDefinitionRegistry types' w))).
Proof.
  intros Hsub. repeat split; intros x; unfold step, fire;
    cbn [subscriptions with_problemMatcherRegistry with_taskDefinitionRegistry];
    rewrite Hsub; reflexivity.
Qed.

Lemma step_server_settles (w : World R J) i server :
  pending w !! i = Some (AfterServer byUpdateSupportedTaskTypes) ->
  step (ServerSettles i (Some server)) w
  = with_pending
      (fun p => p ++ [AfterTypes (Ok (mergeTaskTypes server (taskDefinitionRegistry w)))])
      (with_pending (delete i) w).
Proof. intros Hp. unfold step. rewrite Hp. reflexivity. Qed.

Lemma step_resume (w : World R J) i r :
  pending w !! i = Some (AfterTypes r) ->
  step (Resume i) w = snd (updateSupportedTaskTypes_resume r (with_pending (delete i) w)).
Proof. intros Hp. unfold step. rewrite Hp. reflexivity. Qed.

(** The task-type recomputation from the moment the server call resolves,
    in a world where a resource exists. *)
Lemma resolve_lawful (w : World R J) (server : list string) :
  world_inv w ->
  pending w = [AfterServer byUpdateSupportedTaskTypes] ->
  resources_has taskSchemaUri (inmemoryResources w) = true ->
  exists w2,
    run [ServerSettles 0 (Some server); Resume 0] w = w2 /\
    supportedTaskTypes_of w2 = mergeTaskTypes server (taskDefinitionRegistry w) /\
    exists content,
      trace w2 = trace w ++ [EvReplaced TaskTypes
                               (mergeTaskTypes server (taskDefinitionRegistry w));
                             EvUpdate taskSchemaUri content true].
Proof.
  intros Hinv Hpend Hhas.
  pose (allTypes := mergeTaskTypes server (taskDefinitionRegistry w)).
  pose (wR := with_pending (delete 0) (with_pending (fun p => p ++ [AfterTypes (Ok allTypes)])
                                         (with_pending (delete 0) w))).
  assert (Hrun : run [ServerSettles 0 (Some server); Resume 0] w
                 = snd (update (snd (replace_names TaskTypes allTypes wR)))).
  { unfold run. cbn [fold_left].
    rewrite (step_server_settles w 0 server) by (rewrite Hpend; reflexivity).
    rewrite (step_resume _ 0 (Ok allTypes)).
    - rewrite updateSupportedTaskTypes_resume_unfold. reflexivity.
    - cbn [pending with_pending]. rewrite Hpend. reflexivity. }
  destruct (replace_names_spec TaskTypes allTypes wR Hinv)
    as (_ & HinvB & HtB & _ & HtrB & _ & _ & _ & HrB & _).
  destruct (update_lawful _ HinvB) as (ext2 & r2 & j2 & Hupd & _).
  destruct (update_names _ HinvB) as (_ & Ht2 & _).
  change (inmemoryResources wR) with (inmemoryResources w) in HrB.
  change (trace wR) with (trace w) in HtrB.
  rewrite HrB, Hhas, HtrB in Hupd.
  eexists. split; [exact Hrun|]. split.
  - rewrite Ht2. exact HtB.
  - eexists. rewrite Hupd. cbn [snd trace]. rewrite <- app_assoc. reflexivity.
Qed.

(** C3, as the code has it: at start [init] replaces the matcher names and
    publishes once, calls the server, and subscribes; the task types are
    replaced, and the document published a second time, only when the server
    call has resolved, after the subscriptions were made.  From then on a
    matcher notification runs [updateProblemMatcherNames] and nothing else,
    and a definition notification runs [updateSupportedTaskTypes] and nothing
    else. *)
Theorem C3_start_and_notifications
    (inputs : JSON) (matchers types : list string) (r : R) (j : J) :
  let w1 := step PostConstruct (initial inputs matchers types r j) in
  map kind_of (trace w1)
  = KReplaced MatcherNames
    :: (if resources_has taskSchemaUri r then [KUpdate true]
        else [KUpdate false; KAdd true; KRegisterSchema true])
    ++ [KServerCall; KSubscribe onDidChangeProblemMatcher;
        KSubscribe onDidRegisterTaskDefinition;
        KSubscribe onDidUnregisterTaskDefinition] /\
  subscriptions w1 = init_subscriptions /\
  pending w1 = [AfterServer byUpdateSupportedTaskTypes] /\
  problemMatcherNames_of w1 = map normalizeMatcherName matchers /\
  supportedTaskTypes_of w1 = defaultTaskTypes /\
  publication_count (trace w1) = 1 /\
  (forall server,
     let w2 := run [ServerSettles 0 (Some server); Resume 0] w1 in
     map kind_of (trace w2) = map kind_of (trace w1) ++ [KReplaced TaskTypes; KUpdate true] /\
     supportedTaskTypes_of w2 = mergeTaskTypes server types /\
     publication_count (trace w2) = 2) /\
  (forall w : World R J,
     subscriptions w = init_subscriptions ->
     (forall names,
        step (MatchersChanged names) w
        = snd (updateProblemMatcherNames (with_problemMatcherRegistry names w))) /\
     (forall types',
        step (DefinitionRegistered types') w
        = snd (updateSupportedTaskTypes_call (with_taskDefinitionRegistry types' w))) /\
     (forall types',
        step (DefinitionUnregistered types') w
        = snd (updateSupportedTaskTypes_call (with_taskDefinitionRegistry types' w)))).
Proof.
  intros w1. destruct (init_lawful inputs matchers types r j) as (ext & r' & j' & Hw1 & Hr').
  fold w1 in Hw1. clearbody w1.
  assert (Hnames : world_inv w1 /\ supportedTaskTypes_of w1 = defaultTaskTypes /\
                   problemMatcherNames_of w1 = map normalizeMatcherName matchers).
  { apply world_inv_intro. rewrite Hw1. eexists. reflexivity. }
  destruct Hnames as (Hinv1 & Ht1 & Hm1).
  assert (Hsub1 : subscriptions w1 = init_subscriptions) by (rewrite Hw1; reflexivity).
  assert (Hpend1 : pending w1 = [AfterServer byUpdateSupportedTaskTypes])
    by (rewrite Hw1; reflexivity).
  assert (Hhas1 : resources_has taskSchemaUri (inmemoryResources w1) = true)
    by (rewrite Hw1; exact Hr').
  assert (Htypes1 : taskDefinitionRegistry w1 = types) by (rewrite Hw1; reflexivity).
  assert (Hkinds : map kind_of (trace w1)
            = KReplaced MatcherNames
              :: (if resources_has taskSchemaUri r then [KUpdate true]
                  else [KUpdate false; KAdd true; KRegisterSchema true])
              ++ [KServerCall; KSubscribe onDidChangeProblemMatcher;
                  KSubscribe onDidRegisterTaskDefinition;
                  KSubscribe onDidUnregisterTaskDefinition]).
  { rewrite Hw1. cbn [trace]. destruct (resources_has taskSchemaUri r); reflexivity. }
  assert (Hcount : publication_count (trace w1) = 1).
  { rewrite Hw1. cbn [trace]. destruct (resources_has taskSchemaUri r); reflexivity. }
  clear Hw1.
  split; [exact Hkinds|]. split; [exact Hsub1|]. split; [exact Hpend1|].
  split; [exact Hm1|]. split; [exact Ht1|]. split; [exact Hcount|].
  split.
  - intros server.
    destruct (resolve_lawful w1 server Hinv1 Hpend1 Hhas1)
      as (w2 & -> & Ht2 & content & Htr2).
    cbv zeta. rewrite Htr2, Ht2, Htypes1. split; [|split; [reflexivity|]].
    + rewrite map_app. reflexivity.
    + rewrite publication_count_app, Hcount. reflexivity.
  - intros w Hsub. apply step_notification, Hsub.
Qed.

Lemma NoDup_fold_Set_add xs : forall s,
  NoDup (s ++ xs) -> fold_left Set_add xs s = s ++ xs.
Proof.
  induction xs as [|x r IH]; intros s Hnd; simpl; [rewrite app_nil_r; reflexivity|].
  assert (Hx : existsb (String.eqb x) s = false).
  { destruct (existsb (String.eqb x) s) eqn:E; [|reflexivity]. exfalso.
    apply existsb_exists in E as (z & Hz & Hxz). apply String.eqb_eq in Hxz as <-.
    apply NoDup_app in Hnd as (_ & Hdisj & _).
    apply (Hdisj x); [apply list_elem_of_In, Hz | left]. }
  unfold Set_add at 2. rewrite Hx. rewrite IH; rewrite <- app_assoc; [reflexivity|exact Hnd].
Qed.

Lemma spec_matcher_enum_sorted names :
  StronglySorted str_le (map normalizeMatcherName names) ->
  NoDup (map normalizeMatcherName names) ->
  spec_matcher_enum names = map normalizeMatcherName names.
Proof.
  intros Hs Hnd. unfold spec_matcher_enum, Set_from.
  rewrite NoDup_fold_Set_add by exact Hnd. simpl.
  symmetry. apply sorted_perm_unique; [exact Hs | apply Array_sort_sorted | apply Array_sort_perm].
Qed.

(** C2, as the code has it: after a matcher notification the matcher-name
    array, and with it both matcher enums of the published schema, is the
    list of the sigil-normalized names the registry returns, in the
    registry's order and with its repetitions; a name is in it exactly when
    it is the normalization of a name the registry returns; it is the sorted
    set of the specification when the normalized names come sorted and
    without repetition; and the entry of a removed name is still in it
    exactly when a name still registered normalizes to the same entry. *)
Theorem C2_matcher_enum_follows_registry (w : World R J) (names : list string) :
  world_inv w ->
  subscriptions w = init_subscriptions ->
  let w' := step (MatchersChanged names) w in
  let tree := schemaTree (inputsSchema_inputs w) (supportedTaskTypes_of w)
                (map normalizeMatcherName names) in
  problemMatcherNames_of w' = map normalizeMatcherName names /\
  last_content (trace w') = Some (render tree) /\
  matcher_enum tree = Some (names_tree (map normalizeMatcherName names)) /\
  matcher_items_enum tree = Some (names_tree (map normalizeMatcherName names)) /\
  (forall x, x ∈ problemMatcherNames_of w' <->
             exists raw, raw ∈ names /\ x = normalizeMatcherName raw) /\
  (StronglySorted str_le (map normalizeMatcherName names) ->
   NoDup (map normalizeMatcherName names) ->
   problemMatcherNames_of w' = spec_matcher_enum names) /\
  (forall removed,
     normalizeMatcherName removed ∈ problemMatcherNames_of w' <->
     exists raw, raw ∈ names /\ normalizeMatcherName raw = normalizeMatcherName removed).
Proof.
  intros Hinv Hsub w' tree.
  assert (Hw' : w' = snd (updateProblemMatcherNames (with_problemMatcherRegistry names w))).
  { apply step_notification, Hsub. }
  rewrite updateProblemMatcherNames_unfold in Hw'.
  change (problemMatcherRegistry (with_problemMatcherRegistry names w)) with names in Hw'.
  set (wA := snd (replace_names MatcherNames (map normalizeMatcherName names)
                    (with_problemMatcherRegistry names w))) in Hw'.
  destruct (replace_names_spec MatcherNames (map normalizeMatcherName names)
              (with_problemMatcherRegistry names w) Hinv)
    as (_ & HinvA & HtA & HmA & _ & HiA & _).
  fold wA in HinvA, HtA, HmA, HiA.
  destruct (update_names wA HinvA) as (_ & _ & Hm').
  assert (Hnames : problemMatcherNames_of w' = map normalizeMatcherName names).
  { rewrite Hw', Hm'. exact HmA. }
  split; [exact Hnames|]. split.
  { rewrite Hw', last_content_update by exact HinvA.
    unfold schema_content. rewrite HtA, HmA, HiA. reflexivity. }
  split; [reflexivity|]. split; [reflexivity|]. split.
  - intros x. rewrite Hnames, list_elem_of_fmap. split.
    + intros (raw & -> & Hraw). eauto.
    + intros (raw & Hraw & ->). eauto.
  - split.
    + intros Hs Hnd. rewrite Hnames. symmetry. apply spec_matcher_enum_sorted; assumption.
    + intros removed. rewrite Hnames, list_elem_of_fmap. split.
      * intros (raw & Heq & Hraw). eauto.
      * intros (raw & Hraw & Heq). eauto.
Qed.

End Startup.

(** *** Concrete runs *)

Lemma C3_witness :
  let w1 := step PostConstruct (world0 ["gcc"] ["custom"]) in
  publication_count (trace w1) = 1 /\
  subscriptions w1 = init_subscriptions /\
  supportedTaskTypes_of w1 = defaultTaskTypes /\
  let w2 := run [ServerSettles 0 (Some ["shell"; "process"]); Resume 0] w1 in
  supportedTaskTypes_of w2 = mergeTaskTypes ["shell"; "process"] ["custom"] /\
  publication_count (trace w2) = 2.
Proof.
  destruct (C3_start_and_notifications (lawful := map_store_lawful)
              sample_inputs ["gcc"] ["custom"] ∅ [])
    as (_ & Hsub & _ & _ & Ht & Hcount & Hresolve & _).
  split; [exact Hcount|]. split; [exact Hsub|]. split; [exact Ht|].
  destruct (Hresolve ["shell"; "process"]) as (_ & Ht2 & Hcount2).
  split; [exact Ht2 | exact Hcount2].
Defined.

(** C3 as stated fails: at start the document is published twice, and the
    subscriptions are made before the task types are recomputed. *)
Lemma C3_counterexample :
  let w1 := step PostConstruct (world0 [] []) in
  let w2 := run [ServerSettles 0 (Some ["shell"; "process"]); Resume 0] w1 in
  map kind_of (trace w2)
  = [KReplaced MatcherNames; KUpdate false; KAdd true; KRegisterSchema true;
     KServerCall; KSubscribe onDidChangeProblemMatcher;
     KSubscribe onDidRegisterTaskDefinition; KSubscribe onDidUnregisterTaskDefinition;
     KReplaced TaskTypes; KUpdate true] /\
  publication_count (trace w2) = 2 /\
  publication_count (trace w2) <> 1 /\
  subscriptions w1 = init_subscriptions /\
  map kind_of (trace w1)
  = [KReplaced MatcherNames; KUpdate false; KAdd true; KRegisterSchema true;
     KServerCall; KSubscribe onDidChangeProblemMatcher;
     KSubscribe onDidRegisterTaskDefinition; KSubscribe onDidUnregisterTaskDefinition].
Proof.
  vm_compute. repeat split; discriminate.
Qed.

Lemma C2_witness :
  let w := step PostConstruct (world0 ["gcc"] []) in
  world_inv w /\
  subscriptions w = init_subscriptions /\
  problemMatcherNames_of (step (MatchersChanged ["tsc"; "$eslint"]) w) = ["$tsc"; "$eslint"].
Proof.
  intros w.
  assert (Hinv : world_inv w) by (exists (drop 35 (memory w)); vm_compute; reflexivity).
  assert (Hsub : subscriptions w = init_subscriptions) by (vm_compute; reflexivity).
  split; [exact Hinv|]. split; [exact Hsub|].
  exact (proj1 (C2_matcher_enum_follows_registry w ["tsc"; "$eslint"] Hinv Hsub)).
Defined.

(** C2 as stated fails: a registry that returns "foo", "$foo" and "bar"
    gives an enum with "$foo" twice and "$bar" last, not the sorted set; and
    when "$foo" is then removed while "foo" stays, the enum still holds the
    removed name. *)
Lemma C2_counterexample :
  let w := run [PostConstruct; MatchersChanged ["foo"; "$foo"; "bar"]] (world0 [] []) in
  let w2 := run [PostConstruct; MatchersChanged ["foo"; "$foo"; "bar"];
                 MatchersChanged ["foo"; "bar"]] (world0 [] []) in
  problemMatcherNames_of w = ["$foo"; "$foo"; "$bar"] /\
  spec_matcher_enum ["foo"; "$foo"; "bar"] = ["$bar"; "$foo"] /\
  problemMatcherNames_of w <> spec_matcher_enum ["foo"; "$foo"; "bar"] /\
  ~ NoDup (problemMatcherNames_of w) /\
  ~ StronglySorted str_le (problemMatcherNames_of w) /\
  "$foo" ∈ problemMatcherNames_of w2.
Proof.
  intros w w2.
  assert (Hw : problemMatcherNames_of w = ["$foo"; "$foo"; "$bar"]) by (vm_compute; reflexivity).
  assert (Hw2 : problemMatcherNames_of w2 = ["$foo"; "$bar"]) by (vm_compute; reflexivity).
  assert (Hs : spec_matcher_enum ["foo"; "$foo"; "bar"] = ["$bar"; "$foo"])
    by (vm_compute; reflexivity).
  clearbody w w2. rewrite Hw, Hw2, Hs. repeat split; try discriminate; [| |left].
  - intros Hnd. apply NoDup_cons in Hnd as [Hnotin _]. apply Hnotin. left.
  - intros Hss. apply StronglySorted_inv in Hss as [_ Hall].
    apply Forall_cons in Hall as [_ Hall]. apply Forall_cons in Hall as [Hle _].
    vm_compute in Hle. discriminate.
Qed.

(** C1 at the failing input: no local definitions and a server that reports
    no types.  The recomputation empties the array, the published type enum
    is empty, while the specification's enum holds the defaults. *)
Theorem C1_defaults_dropped_by_recomputation :
  let w := run [PostConstruct; ServerSettles 0 (Some []); Resume 0] (world0 [] []) in
  supportedTaskTypes_of w = [] /\
  last_content (trace w) = Some (render (schemaTree sample_inputs [] [])) /\
  type_enum (schemaTree sample_inputs [] []) = Some (JArr []) /\
  spec_type_enum [] [] = ["process"; "shell"] /\
  supportedTaskTypes_of w <> spec_type_enum [] [].
Proof. vm_compute. repeat split. discriminate. Qed.

Lemma C7_witness :
  let w1 := world0 [] [] in
  let w2 := step PostConstruct (world0 [] []) in
  (world_inv w1 /\ world_inv w2 /\ memory w1 <> memory w2 /\ trace w1 <> trace w2) /\
  exists s,
    fst (getStrigifiedTaskSchema_m w1) = Ok s /\
    fst (getStrigifiedTaskSchema_m w2) = Ok s /\
    last_content (trace (snd (update w1))) = Some s /\
    last_content (trace (snd (update w2))) = Some s.
Proof.
  intros w1 w2.
  assert (Hinv1 : world_inv w1) by (exists []; vm_compute; reflexivity).
  assert (Hinv2 : world_inv w2) by (exists (drop 35 (memory w2)); vm_compute; reflexivity).
  split.
  - split; [exact Hinv1|]. split; [exact Hinv2|]. split; vm_compute; discriminate.
  - apply (C7_serialization_deterministic w1 w2 Hinv1 Hinv2);
      vm_compute; reflexivity.
Defined.

Lemma C9_witness :
  let w := world_down ["gcc"] [] in
  world_inv w /\
  fst (updateProblemMatcherNames w) = Throw ResourceError /\
  problemMatcherNames_of (snd (updateProblemMatcherNames w)) = ["$gcc"] /\
  supportedTaskTypes_of (snd (updateSupportedTaskTypes_resume (Ok ["custom"]) w))
  = ["custom"].
Proof.
  intros w.
  assert (Hinv : world_inv w) by (exists []; vm_compute; reflexivity).
  split; [exact Hinv|].
  assert (Hu : forall c, resources_update taskSchemaUri c (inmemoryResources w) = None)
    by (intros c; reflexivity).
  assert (Ha : forall c, resources_add taskSchemaUri c (inmemoryResources w) = None)
    by (intros c; reflexivity).
  destruct (C9_names_kept_when_publication_fails w Hinv Hu Ha)
    as ((Hthrow & Hnames) & Htypes).
  split; [exact Hthrow|]. split; [exact Hnames|]. exact (proj2 (Htypes ["custom"])).
Defined.

(** * Further properties of the code *)

(** ** The merged list of task types *)

(** X1: the list [getRegisteredTaskTypes] returns is in ascending code-unit
    order, has no name twice, and holds exactly the names the server or the
    local registry reports. *)
Theorem X1_registered_types_sorted_set (server browser : list string) :
  StronglySorted str_le (mergeTaskTypes server browser) /\
  NoDup (mergeTaskTypes server browser) /\
  (forall x, x ∈ mergeTaskTypes server browser <-> x ∈ server \/ x ∈ browser) /\
  length (mergeTaskTypes server browser) <= length server + length browser.
Proof.
  unfold mergeTaskTypes. split; [apply Array_sort_sorted|]. split.
  { rewrite <- Array_sort_perm. apply Set_from_NoDup. }
  split.
  { intros x. rewrite <- Array_sort_perm, Set_from_elem, elem_of_app. reflexivity. }
  rewrite <- (Permutation_length (Array_sort_perm _)), <- length_app.
  apply submseteq_length, NoDup_submseteq; [apply Set_from_NoDup|].
  intros x Hx. apply Set_from_elem, Hx.
Qed.

Lemma mergeTaskTypes_canonical server1 browser1 server2 browser2 :
  (forall x, x ∈ server1 \/ x ∈ browser1 <-> x ∈ server2 \/ x ∈ browser2) ->
  mergeTaskTypes server1 browser1 = mergeTaskTypes server2 browser2.
Proof.
  intros Hsame.
  destruct (mergeTaskTypes_spec server1 browser1) as (Hs1 & Hn1 & He1).
  destruct (mergeTaskTypes_spec server2 browser2) as (Hs2 & Hn2 & He2).
  apply sorted_perm_unique; [exact Hs1 | exact Hs2|].
  apply NoDup_Permutation; [exact Hn1 | exact Hn2|].
  intros x. rewrite He1, He2. apply Hsame.
Qed.

(** X2: the merged list depends only on which names are reported, not on
    who reports them, in which order or how often: two pairs of lists with
    the same names merge to the same list; swapping server and registry, or
    merging the result once more, changes nothing. *)
Theorem X2_registered_types_depend_on_names_only
    (server1 browser1 server2 browser2 : list string) :
  (forall x, x ∈ server1 \/ x ∈ browser1 <-> x ∈ server2 \/ x ∈ browser2) ->
  mergeTaskTypes server1 browser1 = mergeTaskTypes server2 browser2 /\
  mergeTaskTypes server1 browser1 = mergeTaskTypes browser1 server1 /\
  mergeTaskTypes (mergeTaskTypes server1 browser1) browser1
  = mergeTaskTypes server1 browser1.
Proof.
  intros Hsame. split; [apply mergeTaskTypes_canonical, Hsame|]. split.
  - apply mergeTaskTypes_canonical. intros x. tauto.
  - apply mergeTaskTypes_canonical. intros x.
    destruct (mergeTaskTypes_spec server1 browser1) as (_ & _ & He). rewrite He. tauto.
Qed.

Lemma X2_witness :
  (forall x, x ∈ ["shell"; "b"; "shell"] \/ x ∈ ["a"]
             <-> x ∈ ["a"; "b"] \/ x ∈ ["shell"; "a"]) /\
  mergeTaskTypes ["shell"; "b"; "shell"] ["a"] = mergeTaskTypes ["a"; "b"] ["shell"; "a"].
Proof.
  assert (Hsame : forall x, x ∈ ["shell"; "b"; "shell"] \/ x ∈ ["a"]
                            <-> x ∈ ["a"; "b"] \/ x ∈ ["shell"; "a"]).
  { intros x. rewrite !elem_of_cons, !elem_of_nil. tauto. }
  split; [exact Hsame|].
  exact (proj1 (X2_registered_types_depend_on_names_only _ _ _ _ Hsame)).
Defined.

(** ** Names that normalize to the same entry *)

Lemma sigil_cons_inj a b : "$" +:+ a = "$" +:+ b -> a = b.
Proof. intros Heq. injection Heq. trivial. Qed.

(** X3: two raw matcher names are normalized to the same enum entry exactly
    when they are equal, or one of them does not start with "$" and the other
    is that name with one "$" put in front. *)
Theorem X3_normalization_collisions (a b : string) :
  normalizeMatcherName a = normalizeMatcherName b <->
  a = b \/
  (startsWith b "$" = false /\ a = "$" +:+ b) \/
  (startsWith a "$" = false /\ b = "$" +:+ a).
Proof.
  unfold normalizeMatcherName.
  destruct (startsWith a "$") eqn:Ea, (startsWith b "$") eqn:Eb; split.
  - auto.
  - intros [H|[[H _]|[H _]]]; [exact H | discriminate..].
  - auto.
  - intros [->|[[_ H]|[H _]]]; [congruence | exact H | discriminate].
  - intros ->. auto.
  - intros [->|[[H _]|[_ H]]]; [congruence | discriminate | symmetry; exact H].
  - intros H%sigil_cons_inj. auto.
  - intros [->|[[_ ->]|[_ ->]]]; [reflexivity|..].
    + rewrite startsWith_sigil_cons in Ea. discriminate.
    + rewrite startsWith_sigil_cons in Eb. discriminate.
Qed.

(** ** Recomputations and the steps that run them *)

Section Further.

Context {R J : Type} `{InMemoryResources R} `{JsonSchemaStore J}.

Lemma count_filter_snoc (p : Event -> bool) t e :
  length (filter (fun e => p e = true) (t ++ [e]))
  = length (filter (fun e => p e = true) t) + (if p e then 1 else 0).
Proof.
  rewrite filter_app, length_app. f_equal. cbn. destruct (p e); reflexivity.
Qed.


(** What [update()] does, case by case on the three collaborator calls. *)
Lemma update_cases (w : World R J) :
  world_inv w ->
  exists ext,
    let c := schema_content w in
    let w0 := with_memory (fun _ => memory w ++ ext) w in
    update w =
    match resources_update taskSchemaUri c (inmemoryResources w) with
    | Some r => (Ok tt, with_event (EvUpdate taskSchemaUri c true) (with_inmemoryResources r w0))
    | None =>
        let w1 := with_event (EvUpdate taskSchemaUri c false) w0 in
        match resources_add taskSchemaUri c (inmemoryResources w) with
        | None => (Throw ResourceError, with_event (EvAdd taskSchemaUri c false) w1)
        | Some r =>
            let w2 := with_event (EvAdd taskSchemaUri c true) (with_inmemoryResources r w1) in
            match registerSchema ["tasks.json"] taskSchemaUri (jsonSchemaStore w) with
            | None =>
                (Throw SchemaStoreError,
                 with_event (EvRegisterSchema ["tasks.json"] taskSchemaUri false) w2)
            | Some j =>
                (Ok tt, with_event (EvRegisterSchema ["tasks.json"] taskSchemaUri true)
                          (with_jsonSchemaStore j w2))
            end
        end
    end.
Proof.
  intros Hinv. destruct (update_unfold w Hinv) as (ext & ->). exists ext.
  cbv zeta. rewrite publish_cases. reflexivity.
Qed.

(** X4: [update()] never lets the exception of [inmemoryResources.update]
    out: it succeeds when that call succeeds or when both fallback calls
    succeed, and throws only what [add] or [registerSchema] throws.  When
    [registerSchema] throws, the resource that [add] has registered stays
    registered. *)
Theorem X4_update_outcome (w : World R J) :
  world_inv w ->
  let c := schema_content w in
  let updated := resources_update taskSchemaUri c (inmemoryResources w) in
  let added := resources_add taskSchemaUri c (inmemoryResources w) in
  let associated := registerSchema ["tasks.json"] taskSchemaUri (jsonSchemaStore w) in
  (fst (update w) = Ok tt <-> is_Some updated \/ (is_Some added /\ is_Some associated)) /\
  (fst (update w) = Throw ResourceError <-> updated = None /\ added = None) /\
  (fst (update w) = Throw SchemaStoreError <->
   updated = None /\ is_Some added /\ associated = None) /\
  (forall r', updated = None -> added = Some r' ->
              inmemoryResources (snd (update w)) = r') /\
  (forall r', updated = Some r' ->
              inmemoryResources (snd (update w)) = r' /\
              jsonSchemaStore (snd (update w)) = jsonSchemaStore w /\
              add_count (trace (snd (update w))) = add_count (trace w) /\
              registerSchema_count (trace (snd (update w)))
              = registerSchema_count (trace w)).
Proof.
  intros Hinv c updated added associated.
  destruct (update_cases w Hinv) as (ext & Hupd). cbv zeta in Hupd. rewrite Hupd.
  subst updated added associated c.
  destruct (resources_update _ _ _) as [r1|].
  { cbn [fst snd]. split; [|split; [|split; [|split]]].
    - split; [intros _; left; eauto | reflexivity].
    - split; [discriminate | intros [[=] _]].
    - split; [discriminate | intros [[=] _]].
    - intros r' [=].
    - intros r' [= <-]. unfold add_count, registerSchema_count.
      cbn [trace with_event inmemoryResources jsonSchemaStore with_inmemoryResources
           with_memory].
      rewrite !count_filter_snoc. cbn. repeat split; lia. }
  destruct (resources_add _ _ _) as [r2|].
  2:{ cbn [fst snd]. split; [|split; [|split; [|split]]].
      - split; [discriminate|]. intros [[x [=]]|[[x [=]] _]].
      - split; auto.
      - split; [discriminate|]. intros (_ & [x [=]] & _).
      - intros r' _ [=].
      - intros r' [=]. }
  destruct (registerSchema _ _ _) as [j2|]; cbn [fst snd];
    (split; [|split; [|split; [|split]]]).
  - split; [intros _; right; eauto | reflexivity].
  - split; [discriminate | intros [_ [=]]].
  - split; [discriminate | intros (_ & _ & [=])].
  - intros r' _ [= <-]. reflexivity.
  - intros r' [=].
  - split; [discriminate|]. intros [[x [=]]|[_ [x [=]]]].
  - split; [discriminate | intros [_ [=]]].
  - split; [intros _; eauto | reflexivity].
  - intros r' _ [= <-]. reflexivity.
  - intros r' [=].
Qed.

(** One recomputation: the array is replaced, then [update()] runs. *)
Lemma recompute_spec s names (w : World R J) :
  world_inv w ->
  let w' := snd (update (snd (replace_names s names w))) in
  world_inv w' /\
  supportedTaskTypes_of w'
    = match s with TaskTypes => names | MatcherNames => supportedTaskTypes_of w end /\
  problemMatcherNames_of w'
    = match s with TaskTypes => problemMatcherNames_of w | MatcherNames => names end /\
  inputsSchema_inputs w' = inputsSchema_inputs w /\
  problemMatcherRegistry w' = problemMatcherRegistry w /\
  taskDefinitionRegistry w' = taskDefinitionRegistry w /\
  subscriptions w' = subscriptions w /\
  pending w' = pending w /\
  last_content (trace w') = Some (schema_content w') /\
  publication_count (trace w') = S (publication_count (trace w)) /\
  server_call_count (trace w') = server_call_count (trace w).
Proof.
  intros Hinv. set (w1 := snd (replace_names s names w)).
  destruct (replace_names_spec s names w Hinv)
    as (_ & Hinv1 & Ht1 & Hm1 & Htr1 & Hi1 & Hpr1 & Htd1 & _ & _ & Hs1 & Hp1).
  fold w1 in Hinv1, Ht1, Hm1, Htr1, Hi1, Hpr1, Htd1, Hs1, Hp1. clearbody w1.
  cbv zeta.
  destruct (update_names w1 Hinv1) as (Hinv' & Ht' & Hm').
  destruct (update_frame w1 Hinv1) as (_ & Hi' & Hpr' & Htd' & Hs' & Hp').
  assert (Hc : schema_content (snd (update w1)) = schema_content w1).
  { unfold schema_content. rewrite Hi', Ht', Hm'. reflexivity. }
  split; [exact Hinv'|]. split; [congruence|]. split; [congruence|].
  split; [congruence|]. split; [congruence|]. split; [congruence|].
  split; [congruence|]. split; [congruence|].
  split; [rewrite Hc; apply last_content_update, Hinv1|].
  destruct (update_cases w1 Hinv1) as (ext & Hupd). cbv zeta in Hupd. rewrite Hupd.
  unfold publication_count, server_call_count.
  destruct (resources_update _ _ _) as [r1|]; [|destruct (resources_add _ _ _) as [r2|];
    [destruct (registerSchema _ _ _) as [j2|]|]];
    cbn [snd trace with_event with_memory with_inmemoryResources with_jsonSchemaStore];
    rewrite Htr1, !count_filter_snoc; cbn; lia.
Qed.

Lemma updateProblemMatcherNames_spec (w : World R J) :
  world_inv w ->
  let w' := snd (updateProblemMatcherNames w) in
  world_inv w' /\
  supportedTaskTypes_of w' = supportedTaskTypes_of w /\
  problemMatcherNames_of w' = map normalizeMatcherName (problemMatcherRegistry w) /\
  inputsSchema_inputs w' = inputsSchema_inputs w /\
  problemMatcherRegistry w' = problemMatcherRegistry w /\
  taskDefinitionRegistry w' = taskDefinitionRegistry w /\
  subscriptions w' = subscriptions w /\
  pending w' = pending w /\
  last_content (trace w') = Some (schema_content w') /\
  publication_count (trace w') = S (publication_count (trace w)) /\
  server_call_count (trace w') = server_call_count (trace w).
Proof.
  intros Hinv. rewrite updateProblemMatcherNames_unfold.
  apply (recompute_spec MatcherNames _ w Hinv).
Qed.

(** *** Preservation, one method at a time *)

Section MethodPreservation.

Variable Inv : World R J -> Prop.

Hypothesis Inv_matchers_recomputed :
  forall w, Inv w -> Inv (snd (updateProblemMatcherNames w)).
Hypothesis Inv_call : forall c w, Inv w -> Inv (snd (getRegisteredTaskTypes_call c w)).
Hypothesis Inv_subscribed : forall e h w, Inv w -> Inv (snd (subscribe e h w)).
Hypothesis Inv_pending_changed : forall f w, Inv w -> Inv (with_pending f w).
Hypothesis Inv_matchers_set :
  forall names w, Inv w -> Inv (with_problemMatcherRegistry names w).
Hypothesis Inv_definitions_set :
  forall types w, Inv w -> Inv (with_taskDefinitionRegistry types w).

Lemma init_keeps w : Inv w -> Inv (snd (init w)).
Proof.
  unfold init.
  apply bind_preserves; [apply Inv_matchers_recomputed|]. intros _.
  apply bind_preserves; [apply Inv_call|]. intros _.
  apply bind_preserves; [apply Inv_subscribed|]. intros _.
  apply bind_preserves; [apply Inv_subscribed|]. intros _.
  apply Inv_subscribed.
Qed.

Lemma fire_keeps e w : Inv w -> Inv (fire e w).
Proof.
  unfold fire. generalize (subscriptions w) as subs.
  intros subs. revert w. induction subs as [|[e' h] subs IH]; intros w Hw; [exact Hw|].
  simpl. apply IH. destruct (Emitter_eqb e' e); [|exact Hw].
  destruct h; [apply Inv_matchers_recomputed | apply Inv_call]; exact Hw.
Qed.

(** Every step but the resumption of a task-type recomputation. *)
Lemma step_keeps i w : is_resume i = false -> Inv w -> Inv (step i w).
Proof.
  intros Hi Hw. destruct i as [|names|types|types| |i server|i]; try discriminate; simpl.
  - apply init_keeps, Hw.
  - apply fire_keeps, Inv_matchers_set, Hw.
  - apply fire_keeps, Inv_definitions_set, Hw.
  - apply fire_keeps, Inv_definitions_set, Hw.
  - apply (Inv_call byClient), Hw.
  - destruct (pending w !! i) as [[c|r]|]; try exact Hw.
    destruct server as [server|]; destruct c; simpl; auto.
Qed.

Hypothesis Inv_types_recomputed :
  forall allTypes w, Inv w -> Inv (snd (updateSupportedTaskTypes_resume (Ok allTypes) w)).



End MethodPreservation.

End Further.

(** ** The association with the schema index *)

Section Association.

Context {R J : Type} `{InMemoryResources R} `{JsonSchemaStore J}.
Context {laws : ResourceLaws R}.

Lemma association_invariant inputs matchers types (r : R) (j : J) events :
  resources_has taskSchemaUri r = false ->
  let w := run events (initial inputs matchers types r j) in
  world_inv w /\
  ((forall fileMatch url j', registerSchema fileMatch url j' = None) ->
   jsonSchemaStore w = j) /\
  ((resources_has taskSchemaUri (inmemoryResources w) = false /\
    publication_count (trace w) = 0 /\ add_count (trace w) = 0 /\
    registerSchema_count (trace w) = 0) \/
   (resources_has taskSchemaUri (inmemoryResources w) = true /\
    1 <= publication_count (trace w) /\ add_count (trace w) = 1 /\
    registerSchema_count (trace w) = 1)).
Proof.
  intros Hr.
  apply (run_preserves (fun w =>
    world_inv w /\
    ((forall fileMatch url j', registerSchema fileMatch url j' = None) ->
     jsonSchemaStore w = j) /\
    ((resources_has taskSchemaUri (inmemoryResources w) = false /\
      publication_count (trace w) = 0 /\ add_count (trace w) = 0 /\
      registerSchema_count (trace w) = 0) \/
     (resources_has taskSchemaUri (inmemoryResources w) = true /\
      1 <= publication_count (trace w) /\ add_count (trace w) = 1 /\
      registerSchema_count (trace w) = 1)))).
  - intros w (Hinv & Hj & Hrec). split; [apply update_names, Hinv|].
    destruct (update_cases w Hinv) as (ext & Hupd). cbv zeta in Hupd. rewrite Hupd.
    unfold publication_count, add_count, registerSchema_count in *.
    destruct Hrec as [(Hhas & Hp & Ha & Hg)|(Hhas & Hp & Ha & Hg)].
    + rewrite (laws_update_absent taskSchemaUri (schema_content w) _ Hhas).
      destruct (laws_add_absent taskSchemaUri (schema_content w) _ Hhas) as (r' & -> & Hr').
      destruct (registerSchema _ _ _) as [j2|] eqn:Ereg;
        cbn [snd trace with_event with_memory with_inmemoryResources with_jsonSchemaStore
             inmemoryResources jsonSchemaStore];
        rewrite !count_filter_snoc; cbn.
      * split; [intros Href; rewrite Href in Ereg; discriminate|].
        right. split; [exact Hr'|]. lia.
      * split; [exact Hj|]. right. split; [exact Hr'|]. lia.
    + destruct (laws_update_present taskSchemaUri (schema_content w) _ Hhas) as (r' & -> & Hr').
      cbn [snd trace with_event with_memory with_inmemoryResources with_jsonSchemaStore
           inmemoryResources jsonSchemaStore].
      rewrite !count_filter_snoc; cbn.
      split; [exact Hj|]. right. split; [exact Hr'|]. lia.
  - intros s names w (Hinv & Hj & Hrec).
    destruct (replace_names_spec s names w Hinv)
      as (_ & Hinv' & _ & _ & Ht & _ & _ & _ & Hr' & Hj' & _).
    split; [exact Hinv'|]. rewrite Hr', Hj', Ht.
    unfold publication_count, add_count, registerSchema_count in *.
    rewrite !count_filter_snoc. cbn. rewrite !Nat.add_0_r. auto.
  - intros w (Hinv & Hj & Hrec). split; [exact Hinv|].
    unfold publication_count, add_count, registerSchema_count in *.
    cbn [trace with_event inmemoryResources jsonSchemaStore].
    rewrite !count_filter_snoc. cbn. rewrite !Nat.add_0_r. auto.
  - intros e h w (Hinv & Hj & Hrec). split; [exact Hinv|].
    unfold publication_count, add_count, registerSchema_count in *.
    cbn [snd subscribe bind modify trace with_event with_subscriptions
         inmemoryResources jsonSchemaStore].
    rewrite !count_filter_snoc. cbn. rewrite !Nat.add_0_r. auto.
  - intros f w Hw. exact Hw.
  - intros names w Hw. exact Hw.
  - intros types' w Hw. exact Hw.
  - split; [apply world_inv_initial|]. split; [reflexivity|].
    left. cbn. auto.
Qed.

(** X5: in every run that starts without the resource, on a store whose
    [update] fails exactly when the resource is absent, [add] and
    [registerSchema] are each called at most once, by the first publication;
    a [registerSchema] that threw is never called again, so with an index
    that refuses the association is never made. *)
Theorem X5_association_attempted_once
    (inputs : JSON) (matchers types : list string) (r : R) (j : J) (events : list Input) :
  resources_has taskSchemaUri r = false ->
  let w := run events (initial inputs matchers types r j) in
  add_count (trace w) <= 1 /\
  registerSchema_count (trace w) <= 1 /\
  (1 <= publication_count (trace w) ->
   add_count (trace w) = 1 /\ registerSchema_count (trace w) = 1 /\
   resources_has taskSchemaUri (inmemoryResources w) = true) /\
  ((forall fileMatch url j', registerSchema fileMatch url j' = None) ->
   jsonSchemaStore w = j).
Proof.
  intros Hr w.
  destruct (association_invariant inputs matchers types r j events Hr)
    as (_ & Hj & [(Hhas & Hp & Ha & Hg)|(Hhas & Hp & Ha & Hg)]); fold w in Hj, Hhas, Hp, Ha, Hg.
  - repeat split; try lia. exact Hj.
  - repeat split; try lia; assumption.
Qed.

End Association.

Lemma map_resources_laws : ResourceLaws (gmap string string).
Proof.
  split.
  - intros uri c r. simpl. destruct (r !! uri) eqn:E; [|discriminate]. intros _.
    eexists. split; [reflexivity|]. rewrite lookup_insert_eq. reflexivity.
  - intros uri c r. simpl. destruct (r !! uri); [discriminate | reflexivity].
  - intros uri c r _. simpl. eexists. split; [reflexivity|].
    rewrite lookup_insert_eq. reflexivity.
Qed.

Lemma X5_witness :
  resources_has taskSchemaUri (∅ : gmap string string) = false /\
  let w := run [PostConstruct; MatchersChanged ["gcc"]] (world_refused [] []) in
  add_count (trace w) <= 1 /\
  registerSchema_count (trace w) <= 1 /\
  jsonSchemaStore w = refusing.
Proof.
  assert (Hr : resources_has taskSchemaUri (∅ : gmap string string) = false)
    by reflexivity.
  split; [exact Hr|].
  destruct (X5_association_attempted_once (laws := map_resources_laws)
              sample_inputs [] [] ∅ refusing [PostConstruct; MatchersChanged ["gcc"]] Hr)
    as (Ha & Hg & _ & Hj).
  split; [exact Ha|]. split; [exact Hg|]. apply Hj. reflexivity.
Defined.

(** ** What every reachable world keeps *)

Section Reachable.

Context {R J : Type} `{InMemoryResources R} `{JsonSchemaStore J}.

Lemma template_heap_inserts types matchers :
  template_heap types matchers
  = <[13 := OArr (map VStr types)]> (<[12 := OArr (map VStr matchers)]> moduleHeap).
Proof. reflexivity. Qed.

Lemma template_heap_lookup types matchers rest l o :
  moduleHeap !! l = Some o ->
  VRef l <> supportedTaskTypes consts ->
  VRef l <> problemMatcherNames consts ->
  (template_heap types matchers ++ rest) !! l = Some o.
Proof.
  intros Hl Ht Hm. apply lookup_app_l_Some. rewrite template_heap_inserts.
  rewrite !list_lookup_insert_ne; [exact Hl| |]; intros <-; [apply Hm | apply Ht]; reflexivity.
Qed.

Lemma inputs_constant inputs matchers types (r : R) (j : J) events :
  inputsSchema_inputs (run events (initial inputs matchers types r j)) = inputs.
Proof.
  enough (Hboth : world_inv (run events (initial inputs matchers types r j)) /\
                  inputsSchema_inputs (run events (initial inputs matchers types r j)) = inputs)
    by apply Hboth.
  apply (run_preserves (fun w => world_inv w /\ inputsSchema_inputs w = inputs)).
  - intros w [Hinv Hi]. split; [apply update_names, Hinv|].
    destruct (update_frame w Hinv) as (_ & -> & _). exact Hi.
  - intros s names w [Hinv Hi].
    destruct (replace_names_spec s names w Hinv) as (_ & Hinv' & _ & _ & _ & -> & _). auto.
  - intros w Hw. exact Hw.
  - intros e h w Hw. exact Hw.
  - intros f w Hw. exact Hw.
  - intros names w Hw. exact Hw.
  - intros types' w Hw. exact Hw.
  - split; [apply world_inv_initial | reflexivity].
Qed.

(** X6: whatever happens to the component, the objects of the schema
    template stay as the module created them (only the two name arrays
    change, and they hold strings only), so assembling and serializing the
    schema never throws and gives the serialization of the arrays' current
    contents. *)
Theorem X6_template_intact_in_every_run
    (inputs : JSON) (matchers types : list string) (r : R) (j : J) (events : list Input) :
  let w := run events (initial inputs matchers types r j) in
  (forall l o, moduleHeap !! l = Some o ->
               VRef l <> supportedTaskTypes consts ->
               VRef l <> problemMatcherNames consts ->
               memory w !! l = Some o) /\
  (exists l, supportedTaskTypes consts = VRef l /\
             memory w !! l = Some (OArr (map VStr (supportedTaskTypes_of w)))) /\
  (exists l, problemMatcherNames consts = VRef l /\
             memory w !! l = Some (OArr (map VStr (problemMatcherNames_of w)))) /\
  fst (getStrigifiedTaskSchema_m w) = Ok (schema_content w) /\
  inputsSchema_inputs w = inputs.
Proof.
  intros w. pose proof (world_inv_reachable events inputs matchers types r j) as Hinv.
  fold w in Hinv. pose proof (inputs_constant inputs matchers types r j events) as Hi.
  fold w in Hi. clearbody w.
  destruct (getStrigifiedTaskSchema_m_spec w Hinv) as (ext & Hs).
  assert (Hmem := Hinv). destruct Hmem as [rest Hrest].
  split; [|split; [|split; [|split]]].
  - intros l o Hl Ht Hm. rewrite Hrest. apply template_heap_lookup; assumption.
  - exists 13. split; [reflexivity|]. rewrite Hrest at 1. reflexivity.
  - exists 12. split; [reflexivity|]. rewrite Hrest at 1. reflexivity.
  - rewrite Hs. reflexivity.
  - exact Hi.
Qed.


(** X8: the task-type array changes only when a suspended
    [updateSupportedTaskTypes] resumes: no other step, a definition
    notification included, changes it; and a query, a server reply or a
    resumption never changes the matcher names. *)
Theorem X8_arrays_change_only_in_their_recomputation (w : World R J) (i : Input) :
  world_inv w ->
  (is_resume i = false -> supportedTaskTypes_of (step i w) = supportedTaskTypes_of w) /\
  (may_change_matchers i = false ->
   problemMatcherNames_of (step i w) = problemMatcherNames_of w).
Proof.
  intros Hinv. split.
  - intros Hi.
    enough (Hboth : world_inv (step i w) /\
                    supportedTaskTypes_of (step i w) = supportedTaskTypes_of w)
      by apply Hboth.
    apply (step_keeps (fun w' => world_inv w' /\
                                 supportedTaskTypes_of w' = supportedTaskTypes_of w));
      [| | | | | |exact Hi|split; [exact Hinv | reflexivity]].
    + intros w' [Hinv' Ht].
      destruct (updateProblemMatcherNames_spec w' Hinv') as (Hinv'' & Ht' & _).
      split; [exact Hinv''|]. congruence.
    + intros c w' Hw'. exact Hw'.
    + intros e h w' Hw'. exact Hw'.
    + intros f w' Hw'. exact Hw'.
    + intros names w' Hw'. exact Hw'.
    + intros types' w' Hw'. exact Hw'.
  - intros Hi. destruct i as [|names|types|types| |k server|k]; try discriminate.
    + reflexivity.
    + unfold step. destruct (pending w !! k) as [[c|r0]|]; try reflexivity.
      destruct server as [server|]; destruct c; reflexivity.
    + unfold step. destruct (pending w !! k) as [[c|[allTypes|e]]|]; try reflexivity.
      rewrite updateSupportedTaskTypes_resume_unfold.
      destruct (recompute_spec TaskTypes allTypes (with_pending (delete k) w) Hinv)
        as (_ & _ & Hm & _). exact Hm.
Qed.

End Reachable.

(** ** Sequences of notifications and resumptions *)

Section Sequences.

Context {R J : Type} `{InMemoryResources R} `{JsonSchemaStore J}.

Lemma matcher_notification_spec (w : World R J) names :
  world_inv w ->
  subscriptions w = init_subscriptions ->
  let w' := step (MatchersChanged names) w in
  world_inv w' /\
  subscriptions w' = init_subscriptions /\
  problemMatcherNames_of w' = map normalizeMatcherName names /\
  supportedTaskTypes_of w' = supportedTaskTypes_of w /\
  pending w' = pending w /\
  publication_count (trace w') = S (publication_count (trace w)) /\
  server_call_count (trace w') = server_call_count (trace w).
Proof.
  intros Hinv Hsub. cbv zeta.
  rewrite (proj1 (step_notification w Hsub) names).
  destruct (updateProblemMatcherNames_spec (with_problemMatcherRegistry names w) Hinv)
    as (Hinv' & Ht & Hm & _ & _ & _ & Hs & Hp & _ & Hc & Hsc).
  repeat split; try assumption. rewrite Hs. exact Hsub.
Qed.

Lemma definition_notification_spec (w : World R J) types :
  subscriptions w = init_subscriptions ->
  step (DefinitionRegistered types) w
  = with_pending (fun p => p ++ [AfterServer byUpdateSupportedTaskTypes])
      (with_event EvServerCall (with_taskDefinitionRegistry types w)) /\
  step (DefinitionUnregistered types) w
  = with_pending (fun p => p ++ [AfterServer byUpdateSupportedTaskTypes])
      (with_event EvServerCall (with_taskDefinitionRegistry types w)).
Proof.
  intros Hsub. destruct (step_notification w Hsub) as (_ & Hreg & Hunreg).
  rewrite Hreg, Hunreg. split; reflexivity.
Qed.

(** X9: notifications are not coalesced.  A run of [n] matcher notifications
    publishes [n] times, calls the server never, and leaves the matcher names
    of the last notification; a run of [n] definition notifications calls the
    server [n] times, suspends [n] recomputations, and publishes nothing and
    changes no array until one of them resumes. *)
Theorem X9_one_recomputation_per_notification
    (w : World R J) (changes : list (list string)) :
  world_inv w ->
  subscriptions w = init_subscriptions ->
  (let w' := run (map MatchersChanged changes) w in
   publication_count (trace w') = publication_count (trace w) + length changes /\
   server_call_count (trace w') = server_call_count (trace w) /\
   problemMatcherNames_of w'
   = from_option (map normalizeMatcherName) (problemMatcherNames_of w) (last changes)) /\
  (let w' := run (map DefinitionRegistered changes) w in
   server_call_count (trace w') = server_call_count (trace w) + length changes /\
   length (pending w') = length (pending w) + length changes /\
   publication_count (trace w') = publication_count (trace w) /\
   memory w' = memory w).
Proof.
  intros Hinv Hsub. split.
  - revert w Hinv Hsub. induction changes as [|names changes IH]; intros w Hinv Hsub.
    + cbn. repeat split; lia.
    + cbn [map run fold_left]. change (fold_left _ ?l ?x) with (run l x).
      destruct (matcher_notification_spec w names Hinv Hsub)
        as (Hinv' & Hsub' & Hm & _ & _ & Hc & Hsc).
      destruct (IH _ Hinv' Hsub') as (IHc & IHsc & IHm).
      cbv zeta in *. rewrite IHc, IHsc, IHm, Hc, Hsc, Hm, last_cons. cbn [length].
      repeat split; [lia|]. destruct (last changes); reflexivity.
  - revert w Hinv Hsub. induction changes as [|types changes IH]; intros w Hinv Hsub.
    + cbn. repeat split; lia.
    + cbn [map run fold_left]. change (fold_left _ ?l ?x) with (run l x).
      destruct (definition_notification_spec w types Hsub) as (Hstep & _).
      assert (Hinv' : world_inv (step (DefinitionRegistered types) w))
        by (rewrite Hstep; exact Hinv).
      assert (Hsub' : subscriptions (step (DefinitionRegistered types) w)
                      = init_subscriptions) by (rewrite Hstep; exact Hsub).
      destruct (IH _ Hinv' Hsub') as (IHsc & IHp & IHc & IHm).
      cbv zeta in *. rewrite IHsc, IHp, IHc, IHm, Hstep.
      unfold server_call_count, publication_count.
      cbn [trace pending memory with_pending with_event with_taskDefinitionRegistry].
      rewrite !count_filter_snoc, length_app. cbn. repeat split; lia.
Qed.

(** X10: when the first publication throws, [init] stops there: it calls
    the server for no task types and subscribes to nothing, although the
    matcher names have been replaced; a component that was not subscribed
    stays deaf to every later notification. *)
Theorem X10_failed_first_publication_stops_init (w : World R J) (e : Error) :
  world_inv w ->
  subscriptions w = [] ->
  fst (updateProblemMatcherNames w) = Throw e ->
  let w1 := step PostConstruct w in
  subscriptions w1 = [] /\
  pending w1 = pending w /\
  server_call_count (trace w1) = server_call_count (trace w) /\
  problemMatcherNames_of w1 = map normalizeMatcherName (problemMatcherRegistry w) /\
  forall i, is_notification i = true ->
            trace (step i w1) = trace w1 /\ memory (step i w1) = memory w1.
Proof.
  intros Hinv Hsub Hthrow.
  destruct (updateProblemMatcherNames_spec w Hinv)
    as (_ & _ & Hm & _ & _ & _ & Hs & Hp & _ & _ & Hsc).
  assert (Hw1 : step PostConstruct w = snd (updateProblemMatcherNames w)).
  { unfold step, init, bind at 1.
    destruct (updateProblemMatcherNames w) as [[[]|e'] w']; [discriminate | reflexivity]. }
  cbv zeta in *. rewrite Hw1. rewrite Hs, Hsub in *.
  split; [reflexivity|]. split; [exact Hp|]. split; [exact Hsc|]. split; [exact Hm|].
  intros i Hi. destruct i; try discriminate; unfold step, fire;
    cbn [subscriptions with_problemMatcherRegistry with_taskDefinitionRegistry];
    rewrite Hs; split; reflexivity.
Qed.

Lemma resume_spec (w : World R J) k allTypes :
  world_inv w ->
  pending w !! k = Some (AfterTypes (Ok allTypes)) ->
  let w' := step (Resume k) w in
  world_inv w' /\
  supportedTaskTypes_of w' = allTypes /\
  problemMatcherNames_of w' = problemMatcherNames_of w /\
  pending w' = delete k (pending w) /\
  subscriptions w' = subscriptions w /\
  publication_count (trace w') = S (publication_count (trace w)).
Proof.
  intros Hinv Hk. cbv zeta. rewrite (step_resume w k _ Hk).
  rewrite updateSupportedTaskTypes_resume_unfold.
  destruct (recompute_spec TaskTypes allTypes (with_pending (delete k) w) Hinv)
    as (Hinv' & Ht & Hm & _ & _ & _ & Hs & Hp & _ & Hc & _).
  repeat split; assumption.
Qed.

(** X11: a recomputation overwrites.  A resumption sets the task-type array
    to its own list, whatever the array held; when two recomputations resume
    one after the other, the list of the first is published and then lost:
    the array ends up with the list of the second, after two publications. *)
Theorem X11_last_resumption_wins (w : World R J) (first second : list string) :
  world_inv w ->
  pending w = [AfterTypes (Ok first); AfterTypes (Ok second)] ->
  supportedTaskTypes_of (step (Resume 0) w) = first /\
  supportedTaskTypes_of (run [Resume 0; Resume 0] w) = second /\
  problemMatcherNames_of (run [Resume 0; Resume 0] w) = problemMatcherNames_of w /\
  publication_count (trace (run [Resume 0; Resume 0] w)) = 2 + publication_count (trace w) /\
  pending (run [Resume 0; Resume 0] w) = [].
Proof.
  intros Hinv Hp. unfold run. cbn [fold_left].
  destruct (resume_spec w 0 first Hinv) as (Hinv0 & Ht0 & Hm0 & Hp0 & _ & Hc0);
    [rewrite Hp; reflexivity|].
  cbv zeta in *.
  assert (Hp0' : pending (step (Resume 0) w) = [AfterTypes (Ok second)])
    by (rewrite Hp0, Hp; reflexivity).
  destruct (resume_spec (step (Resume 0) w) 0 second Hinv0)
    as (_ & Ht00 & Hm00 & Hp00 & _ & Hc00); [rewrite Hp0'; reflexivity|].
  cbv zeta in *.
  split; [exact Ht0|]. split; [exact Ht00|]. split; [congruence|]. split.
  - rewrite Hc00, Hc0. reflexivity.
  - rewrite Hp00, Hp0'. reflexivity.
Qed.

(** X12: a task-type recomputation reads the local registry when the server
    replies, not when the notification arrives: of two definition
    notifications in a row, the recomputation started by the first already
    merges the registry as the second left it. *)
Theorem X12_registry_read_at_reply
    (w : World R J) (types1 types2 server : list string) :
  world_inv w ->
  subscriptions w = init_subscriptions ->
  pending w = [] ->
  let w' := run [DefinitionRegistered types1; DefinitionUnregistered types2;
                 ServerSettles 0 (Some server); Resume 1] w in
  supportedTaskTypes_of w' = mergeTaskTypes server types2 /\
  pending w' = [AfterServer byUpdateSupportedTaskTypes].
Proof.
  intros Hinv Hsub Hp. unfold run. cbn [fold_left].
  destruct (definition_notification_spec w types1 Hsub) as (-> & _).
  set (wa := with_pending _ (with_event EvServerCall (with_taskDefinitionRegistry types1 w))).
  assert (Hsuba : subscriptions wa = init_subscriptions) by exact Hsub.
  destruct (definition_notification_spec wa types2 Hsuba) as (_ & ->).
  set (wb := with_pending _ (with_event EvServerCall (with_taskDefinitionRegistry types2 wa))).
  assert (Hpb : pending wb = [AfterServer byUpdateSupportedTaskTypes;
                              AfterServer byUpdateSupportedTaskTypes]).
  { subst wb wa. cbn [pending with_pending with_event with_taskDefinitionRegistry].
    rewrite Hp. reflexivity. }
  rewrite (step_server_settles wb 0 server) by (rewrite Hpb; reflexivity).
  set (wc := with_pending _ (with_pending (delete 0) wb)).
  assert (Hpc : pending wc = [AfterServer byUpdateSupportedTaskTypes;
                              AfterTypes (Ok (mergeTaskTypes server types2))]).
  { subst wc. cbn [pending with_pending]. rewrite Hpb. reflexivity. }
  assert (Hinvc : world_inv wc) by exact Hinv.
  destruct (resume_spec wc 1 (mergeTaskTypes server types2) Hinvc)
    as (_ & Ht & _ & Hpd & _); [rewrite Hpc; reflexivity|].
  cbv zeta in Ht, Hpd. rewrite Hpc in Hpd. split; [exact Ht | exact Hpd].
Qed.

End Sequences.

(** ** Concrete runs of the further properties *)

Lemma X4_witness :
  let w := world_refused [] [] in
  world_inv w /\
  fst (update w) = Throw SchemaStoreError /\
  inmemoryResources (snd (update w)) = {[ taskSchemaUri := schema_content w ]}.
Proof.
  intros w.
  assert (Hinv : world_inv w) by (exists []; vm_compute; reflexivity).
  destruct (X4_update_outcome w Hinv) as (_ & _ & Hschema & Hadded & _).
  split; [exact Hinv|]. split.
  - apply Hschema. split; [reflexivity|]. split; [eexists|]; reflexivity.
  - apply Hadded; reflexivity.
Defined.

Lemma X8_witness :
  let w := step PostConstruct (world0 ["gcc"] []) in
  world_inv w /\
  supportedTaskTypes_of (step (DefinitionRegistered ["custom"]) w) = supportedTaskTypes_of w.
Proof.
  intros w.
  assert (Hinv : world_inv w) by (exists (drop 35 (memory w)); vm_compute; reflexivity).
  split; [exact Hinv|].
  exact (proj1 (X8_arrays_change_only_in_their_recomputation
                  w (DefinitionRegistered ["custom"]) Hinv) eq_refl).
Defined.

Lemma X9_witness :
  let w := step PostConstruct (world0 [] []) in
  world_inv w /\
  subscriptions w = init_subscriptions /\
  publication_count (trace (run (map MatchersChanged [["gcc"]; ["gcc"]; ["tsc"]]) w))
  = publication_count (trace w) + 3.
Proof.
  intros w.
  assert (Hinv : world_inv w) by (exists (drop 35 (memory w)); vm_compute; reflexivity).
  assert (Hsub : subscriptions w = init_subscriptions) by (vm_compute; reflexivity).
  split; [exact Hinv|]. split; [exact Hsub|].
  exact (proj1 (proj1 (X9_one_recomputation_per_notification
                         w [["gcc"]; ["gcc"]; ["tsc"]] Hinv Hsub))).
Defined.

Lemma X10_witness :
  let w := world_down ["gcc"] [] in
  (world_inv w /\ subscriptions w = [] /\
   fst (updateProblemMatcherNames w) = Throw ResourceError) /\
  subscriptions (step PostConstruct w) = [] /\
  pending (step PostConstruct w) = [].
Proof.
  intros w.
  assert (Hinv : world_inv w) by (exists []; vm_compute; reflexivity).
  assert (Hsub : subscriptions w = []) by reflexivity.
  assert (Hthrow : fst (updateProblemMatcherNames w) = Throw ResourceError)
    by (vm_compute; reflexivity).
  split; [auto|].
  destruct (X10_failed_first_publication_stops_init w ResourceError Hinv Hsub Hthrow)
    as (Hs & Hp & _).
  split; [exact Hs | exact Hp].
Defined.

Lemma X11_witness :
  let w := run [PostConstruct; DefinitionRegistered ["custom"];
                ServerSettles 0 (Some ["shell"]); ServerSettles 0 (Some ["process"])]
             (world0 [] []) in
  (world_inv w /\
   pending w = [AfterTypes (Ok ["custom"; "shell"]); AfterTypes (Ok ["custom"; "process"])]) /\
  supportedTaskTypes_of (run [Resume 0; Resume 0] w) = ["custom"; "process"].
Proof.
  intros w.
  assert (Hinv : world_inv w) by (exists (drop 35 (memory w)); vm_compute; reflexivity).
  assert (Hp : pending w = [AfterTypes (Ok ["custom"; "shell"]);
                            AfterTypes (Ok ["custom"; "process"])])
    by (vm_compute; reflexivity).
  split; [auto|].
  exact (proj1 (proj2 (X11_last_resumption_wins w _ _ Hinv Hp))).
Defined.

Lemma X12_witness :
  let w := run [PostConstruct; ServerSettles 0 (Some ["shell"; "process"]); Resume 0]
             (world0 [] []) in
  (world_inv w /\ subscriptions w = init_subscriptions /\ pending w = []) /\
  supportedTaskTypes_of
    (run [DefinitionRegistered ["a"]; DefinitionUnregistered ["b"];
          ServerSettles 0 (Some ["shell"]); Resume 1] w)
  = mergeTaskTypes ["shell"] ["b"].
Proof.
  intros w.
  assert (Hinv : world_inv w) by (exists (drop 35 (memory w)); vm_compute; reflexivity).
  assert (Hsub : subscriptions w = init_subscriptions) by (vm_compute; reflexivity).
  assert (Hp : pending w = []) by (vm_compute; reflexivity).
  split; [auto|].
  exact (proj1 (X12_registry_read_at_reply w ["a"] ["b"] ["shell"] Hinv Hsub Hp)).
Defined.
